(** * UPolly: sentence-by-sentence audio playback

    A shallow embedding of the two pieces of the repository that carry its
    logic:

    - [Player]: the repeat-aware playback controller of
      [upolly/src/App.tsx] ([jumpToSentence], [handleRepeatModeChange],
      [handleRepeatCountChange], [updateCurrentSentence],
      [handleRepeatLogic] and the audio event handlers);
    - [AudioProcessor]: the aligner of
      [frontend/src/components/AudioProcessor.ts] ([tokenizeSentences],
      [buildCharToWordMapping], [processTranscriptionIntoSegments]).

    JavaScript numbers that hold times are modelled as exact rationals [Q]
    (only comparisons and the subtraction [end - 0.1] are used), counters
    and indices as [Z], strings handled code unit by code unit as lists of
    code units. *)

From Stdlib Require Import ZArith NArith QArith List Bool Ascii String DecimalString Lia.
Import ListNotations.

Set Implicit Arguments.

(* ====================================================================== *)
(** * The playback controller ([upolly/src/App.tsx])                        *)
(* ====================================================================== *)

Module Player.

Open Scope Z_scope.

(** ** Types *)

Record Sentence := mkSentence {
  text : string;
  start : Q;
  end_ : Q
}.

Inductive RepeatMode := mode_off | mode_sentence | mode_all.

Definition RepeatMode_eqb (a b : RepeatMode) : bool :=
  match a, b with
  | mode_off, mode_off | mode_sentence, mode_sentence | mode_all, mode_all => true
  | _, _ => false
  end.

(** The browser's [File]; the controller only stores it. *)
Record File := mkFile {
  file_name : string;
  file_type : string;
  file_size : Z
}.

Record AppState := mkAppState {
  showForm : bool;
  selectedFile : option File;
  uploadMessage : string;
  sentences : list Sentence;
  audioFilename : string;
  audioUrl : string;
  isPlaying : bool;
  currentSentenceIndex : Z;
  currentTime : Q;
  playbackSpeed : Q;
  repeatMode : RepeatMode;
  repeatCount : Z;
  currentRepeat : Z;
  isRepeating : bool;
  repeatSentenceIndex : Z;
  isMobile : bool;
  showMobileHelp : bool;
  isUploading : bool
}.

(** One [field: value] entry of a [Partial<AppState>] object literal. *)
Inductive Update :=
| set_showForm (v : bool)
| set_selectedFile (v : option File)
| set_uploadMessage (v : string)
| set_sentences (v : list Sentence)
| set_audioFilename (v : string)
| set_audioUrl (v : string)
| set_isPlaying (v : bool)
| set_currentSentenceIndex (v : Z)
| set_currentTime (v : Q)
| set_playbackSpeed (v : Q)
| set_repeatMode (v : RepeatMode)
| set_repeatCount (v : Z)
| set_currentRepeat (v : Z)
| set_isRepeating (v : bool)
| set_repeatSentenceIndex (v : Z)
| set_isMobile (v : bool)
| set_showMobileHelp (v : bool)
| set_isUploading (v : bool).

(** [{ ...prev, field: v }] for one entry. *)
Definition assign (prev : AppState) (u : Update) : AppState :=
  match u with
  | set_showForm v =>
      mkAppState v (selectedFile prev) (uploadMessage prev) (sentences prev)
        (audioFilename prev) (audioUrl prev) (isPlaying prev)
        (currentSentenceIndex prev) (currentTime prev) (playbackSpeed prev)
        (repeatMode prev) (repeatCount prev) (currentRepeat prev) (isRepeating prev)
        (repeatSentenceIndex prev) (isMobile prev) (showMobileHelp prev)
        (isUploading prev)
  | set_selectedFile v =>
      mkAppState (showForm prev) v (uploadMessage prev) (sentences prev)
        (audioFilename prev) (audioUrl prev) (isPlaying prev)
        (currentSentenceIndex prev) (currentTime prev) (playbackSpeed prev)
        (repeatMode prev) (repeatCount prev) (currentRepeat prev) (isRepeating prev)
        (repeatSentenceIndex prev) (isMobile prev) (showMobileHelp prev)
        (isUploading prev)
  | set_uploadMessage v =>
      mkAppState (showForm prev) (selectedFile prev) v (sentences prev)
        (audioFilename prev) (audioUrl prev) (isPlaying prev)
        (currentSentenceIndex prev) (currentTime prev) (playbackSpeed prev)
        (repeatMode prev) (repeatCount prev) (currentRepeat prev) (isRepeating prev)
        (repeatSentenceIndex prev) (isMobile prev) (showMobileHelp prev)
        (isUploading prev)
  | set_sentences v =>
      mkAppState (showForm prev) (selectedFile prev) (uploadMessage prev) v
        (audioFilename prev) (audioUrl prev) (isPlaying prev)
        (currentSentenceIndex prev) (currentTime prev) (playbackSpeed prev)
        (repeatMode prev) (repeatCount prev) (currentRepeat prev) (isRepeating prev)
        (repeatSentenceIndex prev) (isMobile prev) (showMobileHelp prev)
        (isUploading prev)
  | set_audioFilename v =>
      mkAppState (showForm prev) (selectedFile prev) (uploadMessage prev)
        (sentences prev) v (audioUrl prev) (isPlaying prev) (currentSentenceIndex prev)
        (currentTime prev) (playbackSpeed prev) (repeatMode prev) (repeatCount prev)
        (currentRepeat prev) (isRepeating prev) (repeatSentenceIndex prev)
        (isMobile prev) (showMobileHelp prev) (isUploading prev)
  | set_audioUrl v =>
      mkAppState (showForm prev) (selectedFile prev) (uploadMessage prev)
        (sentences prev) (audioFilename prev) v (isPlaying prev)
        (currentSentenceIndex prev) (currentTime prev) (playbackSpeed prev)
        (repeatMode prev) (repeatCount prev) (currentRepeat prev) (isRepeating prev)
        (repeatSentenceIndex prev) (isMobile prev) (showMobileHelp prev)
        (isUploading prev)
  | set_isPlaying v =>
      mkAppState (showForm prev) (selectedFile prev) (uploadMessage prev)
        (sentences prev) (audioFilename prev) (audioUrl prev) v
        (currentSentenceIndex prev) (currentTime prev) (playbackSpeed prev)
        (repeatMode prev) (repeatCount prev) (currentRepeat prev) (isRepeating prev)
        (repeatSentenceIndex prev) (isMobile prev) (showMobileHelp prev)
        (isUploading prev)
  | set_currentSentenceIndex v =>
      mkAppState (showForm prev) (selectedFile prev) (uploadMessage prev)
        (sentences prev) (audioFilename prev) (audioUrl prev) (isPlaying prev) v
        (currentTime prev) (playbackSpeed prev) (repeatMode prev) (repeatCount prev)
        (currentRepeat prev) (isRepeating prev) (repeatSentenceIndex prev)
        (isMobile prev) (showMobileHelp prev) (isUploading prev)
  | set_currentTime v =>
      mkAppState (showForm prev) (selectedFile prev) (uploadMessage prev)
        (sentences prev) (audioFilename prev) (audioUrl prev) (isPlaying prev)
        (currentSentenceIndex prev) v (playbackSpeed prev) (repeatMode prev)
        (repeatCount prev) (currentRepeat prev) (isRepeating prev)
        (repeatSentenceIndex prev) (isMobile prev) (showMobileHelp prev)
        (isUploading prev)
  | set_playbackSpeed v =>
      mkAppState (showForm prev) (selectedFile prev) (uploadMessage prev)
        (sentences prev) (audioFilename prev) (audioUrl prev) (isPlaying prev)
        (currentSentenceIndex prev) (currentTime prev) v (repeatMode prev)
        (repeatCount prev) (currentRepeat prev) (isRepeating prev)
        (repeatSentenceIndex prev) (isMobile prev) (showMobileHelp prev)
        (isUploading prev)
  | set_repeatMode v =>
      mkAppState (showForm prev) (selectedFile prev) (uploadMessage prev)
        (sentences prev) (audioFilename prev) (audioUrl prev) (isPlaying prev)
        (currentSentenceIndex prev) (currentTime prev) (playbackSpeed prev) v
        (repeatCount prev) (currentRepeat prev) (isRepeating prev)
        (repeatSentenceIndex prev) (isMobile prev) (showMobileHelp prev)
        (isUploading prev)
  | set_repeatCount v =>
      mkAppState (showForm prev) (selectedFile prev) (uploadMessage prev)
        (sentences prev) (audioFilename prev) (audioUrl prev) (isPlaying prev)
        (currentSentenceIndex prev) (currentTime prev) (playbackSpeed prev)
        (repeatMode prev) v (currentRepeat prev) (isRepeating prev)
        (repeatSentenceIndex prev) (isMobile prev) (showMobileHelp prev)
        (isUploading prev)
  | set_currentRepeat v =>
      mkAppState (showForm prev) (selectedFile prev) (uploadMessage prev)
        (sentences prev) (audioFilename prev) (audioUrl prev) (isPlaying prev)
        (currentSentenceIndex prev) (currentTime prev) (playbackSpeed prev)
        (repeatMode prev) (repeatCount prev) v (isRepeating prev)
        (repeatSentenceIndex prev) (isMobile prev) (showMobileHelp prev)
        (isUploading prev)
  | set_isRepeating v =>
      mkAppState (showForm prev) (selectedFile prev) (uploadMessage prev)
        (sentences prev) (audioFilename prev) (audioUrl prev) (isPlaying prev)
        (currentSentenceIndex prev) (currentTime prev) (playbackSpeed prev)
        (repeatMode prev) (repeatCount prev) (currentRepeat prev) v
        (repeatSentenceIndex prev) (isMobile prev) (showMobileHelp prev)
        (isUploading prev)
  | set_repeatSentenceIndex v =>
      mkAppState (showForm prev) (selectedFile prev) (uploadMessage prev)
        (sentences prev) (audioFilename prev) (audioUrl prev) (isPlaying prev)
        (currentSentenceIndex prev) (currentTime prev) (playbackSpeed prev)
        (repeatMode prev) (repeatCount prev) (currentRepeat prev) (isRepeating prev) v
        (isMobile prev) (showMobileHelp prev) (isUploading prev)
  | set_isMobile v =>
      mkAppState (showForm prev) (selectedFile prev) (uploadMessage prev)
        (sentences prev) (audioFilename prev) (audioUrl prev) (isPlaying prev)
        (currentSentenceIndex prev) (currentTime prev) (playbackSpeed prev)
        (repeatMode prev) (repeatCount prev) (currentRepeat prev) (isRepeating prev)
        (repeatSentenceIndex prev) v (showMobileHelp prev) (isUploading prev)
  | set_showMobileHelp v =>
      mkAppState (showForm prev) (selectedFile prev) (uploadMessage prev)
        (sentences prev) (audioFilename prev) (audioUrl prev) (isPlaying prev)
        (currentSentenceIndex prev) (currentTime prev) (playbackSpeed prev)
        (repeatMode prev) (repeatCount prev) (currentRepeat prev) (isRepeating prev)
        (repeatSentenceIndex prev) (isMobile prev) v (isUploading prev)
  | set_isUploading v =>
      mkAppState (showForm prev) (selectedFile prev) (uploadMessage prev)
        (sentences prev) (audioFilename prev) (audioUrl prev) (isPlaying prev)
        (currentSentenceIndex prev) (currentTime prev) (playbackSpeed prev)
        (repeatMode prev) (repeatCount prev) (currentRepeat prev) (isRepeating prev)
        (repeatSentenceIndex prev) (isMobile prev) (showMobileHelp prev) v
  end.

(** The initial value given to [useState<AppState>]. *)
Definition initialState : AppState :=
  {| showForm := false; selectedFile := None; uploadMessage := "";
     sentences := []; audioFilename := ""; audioUrl := "";
     isPlaying := false; currentSentenceIndex := -1; currentTime := 0;
     playbackSpeed := 1;
     repeatMode := mode_off; repeatCount := 3; currentRepeat := 0;
     isRepeating := false; repeatSentenceIndex := -1;
     isMobile := false; showMobileHelp := false; isUploading := false |}.

(** The part of [HTMLAudioElement] the controller reads. [audioRef.current]
    is [None] while no [<audio>] element is mounted. *)
Record HTMLAudioElement := mkAudio {
  audio_currentTime : Q;
  paused : bool
}.

(** ** Effects of a handler

    A handler runs against the [state] object captured by the render that
    created it. It never mutates that object: [updateState] queues
    [setState(prev => ({ ...prev, ...updates }))], and the writes to the audio
    element and the timers it starts are commands to the transport. The
    effects are kept in program order. *)

Inductive Callback :=
| SeekTo (t : Q)          (* if (audioRef.current) audioRef.current.currentTime = t *)
| CallbackTypeError.      (* the callback reads a property of undefined *)

Inductive Action :=
| UpdateState (updates : list Update)
| Seek (t : Q)                         (* audio.currentTime = t *)
| Play                                 (* audio.play() *)
| Pause                                (* audio.pause() *)
| SetPlaybackRate (r : Q)              (* audio.playbackRate = r *)
| SetTimeout (cb : Callback) (ms : Z)  (* setTimeout(cb, ms) *)
| SetInterval (ms : Z)                 (* intervalId = setInterval(updateCurrentSentence, ms) *)
| ClearInterval.                       (* if (intervalId) clearInterval(intervalId) *)

(** How a block of statements ends. *)
Inductive Flow := Fallthrough | Returned | Thrown.

Definition Stmt : Type := list Action * Flow.

Definition skip : Stmt := ([], Fallthrough).
Definition ret : Stmt := ([], Returned).
Definition throw : Stmt := ([], Thrown).
Definition act (a : Action) : Stmt := ([a], Fallthrough).

Definition andThen (s1 s2 : Stmt) : Stmt :=
  match s1 with
  | (a1, Fallthrough) => (a1 ++ fst s2, snd s2)
  | _ => s1
  end.

(** A call to another handler: its [return] ends the callee only, an
    exception propagates. *)
Definition call (s : Stmt) : Stmt :=
  match s with
  | (a, Returned) => (a, Fallthrough)
  | _ => s
  end.

Notation "s1 ;; s2" := (andThen s1 s2) (at level 61, right associativity).

Definition updateState (updates : list Update) : Stmt := act (UpdateState updates).

(** [{ ...prevState, ...updates }] *)
Definition merge (prevState : AppState) (updates : list Update) : AppState :=
  fold_left assign updates prevState.

(** The state after React has applied the queued updaters, in order. *)
Fixpoint commit (prev : AppState) (actions : list Action) : AppState :=
  match actions with
  | [] => prev
  | UpdateState updates :: rest => commit (merge prev updates) rest
  | _ :: rest => commit prev rest
  end.

(** The commands sent to the transport and the timers, in order. *)
Definition is_command (a : Action) : bool :=
  match a with UpdateState _ => false | _ => true end.

Definition commands (actions : list Action) : list Action :=
  filter is_command actions.

(** [arr[i]] for a JavaScript array and an integer [i]: [undefined] out of
    range. *)
Definition index {A} (arr : list A) (i : Z) : option A :=
  if i <? 0 then None else nth_error arr (Z.to_nat i).

Definition length {A} (arr : list A) : Z := Z.of_nat (List.length arr).

(** ** Audio control handlers *)

Section Handlers.

Variable state : AppState.
Variable audioRef : option HTMLAudioElement.

Definition resetAudioState : Stmt :=
  updateState [set_currentSentenceIndex (-1); set_currentTime 0;
               set_currentRepeat 0; set_isRepeating false;
               set_repeatSentenceIndex (-1)].

Definition resetAllState : Stmt :=
  updateState [set_showForm true; set_uploadMessage ""; set_sentences [];
               set_audioFilename ""; set_audioUrl ""; set_selectedFile None;
               set_isPlaying false; set_showMobileHelp false;
               set_isUploading false;
               set_currentSentenceIndex (-1); set_currentTime 0;
               set_currentRepeat 0; set_isRepeating false;
               set_repeatSentenceIndex (-1)].

Definition jumpToSentence (idx : Z) : Stmt :=
  match audioRef, index (sentences state) idx with
  | Some _, Some target =>
      let time := start target in
      act (Seek time) ;;
      updateState [set_currentSentenceIndex idx; set_currentRepeat 0;
                   set_isRepeating false; set_repeatSentenceIndex (-1)]
  | _, _ => skip
  end.

Definition changeSpeed (speed : Q) : Stmt :=
  updateState [set_playbackSpeed speed] ;;
  match audioRef with
  | Some _ => act (SetPlaybackRate speed)
  | None => skip
  end.

Definition handleRepeatModeChange (mode : RepeatMode) : Stmt :=
  updateState [set_repeatMode mode; set_currentRepeat 0;
               set_isRepeating false; set_repeatSentenceIndex (-1)].

Definition handleRepeatCountChange (count : Z) : Stmt :=
  updateState [set_repeatCount count].

(** The values the repeat-count [<select>] offers, the only caller of
    [handleRepeatCountChange]. *)
Definition repeatCountOptions : list Z := [1; 2; 3; 5; 10].

(** ** Audio event handlers *)

(** The [for] loop of [updateCurrentSentence]: the first [i] with
    [time >= sentence.start && time <= sentence.end], or [-1]. *)
Fixpoint findSentence (rest : list Sentence) (i : Z) (time : Q) : Z :=
  match rest with
  | [] => -1
  | sentence :: rest' =>
      if Qle_bool (start sentence) time && Qle_bool time (end_ sentence)
      then i
      else findSentence rest' (i + 1) time
  end.

Definition updateCurrentSentence : Stmt :=
  match audioRef with
  | None => ret
  | Some audio =>
      let time := audio_currentTime audio in
      updateState [set_currentTime time] ;;
      let foundIndex := findSentence (sentences state) 0 time in
      updateState [set_currentSentenceIndex foundIndex]
  end.

Definition handleRepeatLogic : Stmt :=
  match audioRef with
  | None => ret
  | Some audio =>
    if negb (RepeatMode_eqb (repeatMode state) mode_sentence)
       || (currentSentenceIndex state <? 0)
    then ret
    else
    let time := audio_currentTime audio in
    match index (sentences state) (currentSentenceIndex state) with
    | None => throw   (* currentSentence.end of undefined *)
    | Some currentSentence =>
      (* Check if we're past the sentence end *)
      (if Qle_bool (end_ currentSentence - (1 # 10)) time then
         (* First time hitting the end *)
         (if negb (isRepeating state) then
            updateState [set_isRepeating true;
                         set_repeatSentenceIndex (currentSentenceIndex state);
                         set_currentRepeat 1] ;;
            (if currentRepeat state <? repeatCount state - 1 then
               act (SetTimeout (SeekTo (start currentSentence)) 100) ;; ret
             else skip)
          else skip) ;;
         (* Already repeating *)
         (if isRepeating state
             && (repeatSentenceIndex state =? currentSentenceIndex state) then
            if currentRepeat state <? repeatCount state then
              updateState [set_currentRepeat (currentRepeat state + 1)] ;;
              act (SetTimeout (SeekTo (start currentSentence)) 100) ;; ret
            else
              (* Done repeating *)
              updateState [set_isRepeating false; set_repeatSentenceIndex (-1);
                           set_currentRepeat 0] ;;
              (* Move to next sentence *)
              (if currentSentenceIndex state <? length (sentences state) - 1 then
                 match index (sentences state) (currentSentenceIndex state + 1) with
                 | Some next => act (SetTimeout (SeekTo (start next)) 200)
                 | None => act (SetTimeout CallbackTypeError 200)
                 end
               else act Pause)
          else skip)
       else skip) ;;
      (* Reset repeat state when moving to a different sentence naturally *)
      (if (0 <=? currentSentenceIndex state)
          && negb (repeatSentenceIndex state =? currentSentenceIndex state)
          && isRepeating state then
         updateState [set_isRepeating false; set_repeatSentenceIndex (-1);
                      set_currentRepeat 0]
       else skip)
    end
  end.

Definition handleTimeUpdate : Stmt :=
  call updateCurrentSentence ;; call handleRepeatLogic.

Definition handlePlay : Stmt :=
  updateState [set_isPlaying true] ;;
  act (SetPlaybackRate (playbackSpeed state)) ;;
  act (SetInterval 100).

Definition handlePause : Stmt :=
  updateState [set_isPlaying false] ;;
  act ClearInterval.

Definition handleEnded : Stmt :=
  updateState [set_isPlaying false; set_currentSentenceIndex (-1);
               set_currentRepeat 0; set_isRepeating false;
               set_repeatSentenceIndex (-1)] ;;
  act ClearInterval ;;
  (if RepeatMode_eqb (repeatMode state) mode_all then
     act (Seek 0) ;; act Play
   else skip).

(** The main audio effect installs its listeners only
    [if (audio && state.sentences.length !== 0)]. *)
Definition listening : bool :=
  match audioRef with
  | Some _ => negb (length (sentences state) =? 0)
  | None => false
  end.

(** The end of [processUploadResponseMobile] / [processUploadResponseDesktop]
    once the converted sentences are known. *)
Definition uploadProcessed (convertedSentences : list Sentence)
    (filename url message : string) : Stmt :=
  if 0 <? length convertedSentences then
    updateState [set_sentences convertedSentences; set_audioFilename filename;
                 set_audioUrl url; set_uploadMessage message;
                 set_showForm false; set_selectedFile None;
                 set_isUploading false] ;;
    call resetAudioState ;; ret
  else throw.

(** The state writes of [handleSubmit] when an upload starts. *)
Definition uploadStarted (message : string) : Stmt :=
  updateState [set_uploadMessage message; set_sentences [];
               set_isUploading true] ;;
  call resetAudioState.

(** ** Events

    The inputs of the controller: the notifications of the audio element,
    the interval started by [handlePlay], the user's commands, and the two
    moments at which an upload replaces the sentence list. *)
Inductive Event :=
| ev_timeupdate
| ev_interval
| ev_play
| ev_pause
| ev_ended
| ev_jumpToSentence (idx : Z)
| ev_repeatMode (mode : RepeatMode)
| ev_repeatCount (count : Z)
| ev_speed (speed : Q)
| ev_newAudio
| ev_uploadStarted (message : string)
| ev_uploadProcessed (convertedSentences : list Sentence)
    (filename url message : string).

Definition dispatch (ev : Event) : Stmt :=
  match ev with
  | ev_timeupdate => if listening then call handleTimeUpdate else skip
  | ev_interval => if listening then call updateCurrentSentence else skip
  | ev_play => if listening then call handlePlay else skip
  | ev_pause => if listening then call handlePause else skip
  | ev_ended => if listening then call handleEnded else skip
  | ev_jumpToSentence idx => call (jumpToSentence idx)
  | ev_repeatMode mode => call (handleRepeatModeChange mode)
  | ev_repeatCount count => call (handleRepeatCountChange count)
  | ev_speed speed => call (changeSpeed speed)
  | ev_newAudio => call resetAllState
  | ev_uploadStarted message => call (uploadStarted message)
  | ev_uploadProcessed cs filename url message =>
      call (uploadProcessed cs filename url message)
  end.

End Handlers.

(** One event handled to completion: the next state and the commands. *)
Definition step (state : AppState) (audioRef : option HTMLAudioElement)
    (ev : Event) : AppState :=
  commit state (fst (dispatch state audioRef ev)).

Definition issued (state : AppState) (audioRef : option HTMLAudioElement)
    (ev : Event) : list Action :=
  commands (fst (dispatch state audioRef ev)).

(** States the application can be in when only the events [allowed] in the
    state at hand occur. *)
Inductive reachable_by (allowed : AppState -> Event -> Prop) : AppState -> Prop :=
| reachable_initial : reachable_by allowed initialState
| reachable_step : forall state audioRef ev,
    reachable_by allowed state ->
    allowed state ev ->
    reachable_by allowed (step state audioRef ev).

(** States the application can be in. *)
Definition reachable : AppState -> Prop :=
  reachable_by (fun _ _ => True).

(** A repeat count that is at least 1 and does not cut a running cycle
    short; every other event is unrestricted. *)
Definition count_kept (state : AppState) (ev : Event) : Prop :=
  match ev with
  | ev_repeatCount count => 1 <= count /\ currentRepeat state <= count
  | _ => True
  end.

(** [idx] is an index of [arr]. *)
Definition valid_index {A} (arr : list A) (idx : Z) : Prop :=
  0 <= idx < length arr.

(** ** Position samples *)

(** A position sample: the audio element, playing at time [t], fires
    [timeupdate]. *)
Definition playing_at (t : Q) : option HTMLAudioElement :=
  Some {| audio_currentTime := t; paused := false |}.

Definition sample (state : AppState) (t : Q) : AppState :=
  step state (playing_at t) ev_timeupdate.

Definition sample_commands (state : AppState) (t : Q) : list Action :=
  issued state (playing_at t) ev_timeupdate.







(** [time >= sentence.start && time <= sentence.end] *)
Definition contains (s : Sentence) (t : Q) : bool :=
  Qle_bool (start s) t && Qle_bool t (end_ s).

(** The invariant the data model states for a segment list: every segment
    has [start < end] and ends no later than the next one starts. *)
Fixpoint well_ordered (segs : list Sentence) : Prop :=
  match segs with
  | [] => True
  | a :: rest =>
      (start a < end_ a)%Q /\
      match rest with
      | [] => True
      | b :: _ => (end_ a <= start b)%Q
      end /\
      well_ordered rest
  end.

(** ** The repeat cycle *)



(** The two seeks the repeat logic schedules. *)
Definition seek_start (s : Sentence) : Action := SetTimeout (SeekTo (start s)) 100.

(** What holds of the repeat fields in every state. *)
Definition cycle_consistent (s : AppState) : Prop :=
  -1 <= currentSentenceIndex s < length (sentences s) /\
  (isRepeating s = true ->
   valid_index (sentences s) (repeatSentenceIndex s) /\ 1 <= currentRepeat s) /\
  (isRepeating s = false -> currentRepeat s = 0 /\ repeatSentenceIndex s = -1).

Definition count_bounded (s : AppState) : Prop :=
  1 <= repeatCount s /\ 0 <= currentRepeat s <= repeatCount s.

(** ** A session used in the examples

    Two sentences that touch at 5 s are loaded and sentence repeat is
    switched on; the first sample, at 0.5 s, makes sentence 0 active. *)
Module Session.

Definition touching : list Sentence :=
  [ {| text := "Hi."; start := 0; end_ := 5 |};
    {| text := "Bye."; start := 5; end_ := 10 |} ].

Definition loaded : AppState :=
  step initialState None
    (ev_uploadProcessed touching "a.mp3" "blob:a" "Processing complete!").

Definition repeating : AppState :=
  step loaded None (ev_repeatMode mode_sentence).

Definition started : AppState := sample repeating (1 # 2).


Definition first : Sentence := {| text := "Hi."; start := 0; end_ := 5 |}.
Definition second : Sentence := {| text := "Bye."; start := 5; end_ := 10 |}.

(** A cycle in progress: one repeat of sentence 0 counted. *)
Definition mid_cycle : AppState := sample started (49 # 10).

(** The same with a pause between the two sentences. *)
Definition apart : list Sentence :=
  [ {| text := "Hi."; start := 0; end_ := 5 |};
    {| text := "Bye."; start := 6; end_ := 10 |} ].

Definition started_apart : AppState :=
  sample
    (step
       (step initialState None
          (ev_uploadProcessed apart "a.mp3" "blob:a" "Processing complete!"))
       None (ev_repeatMode mode_sentence))
    (1 # 2).

End Session.

End Player.

(* ====================================================================== *)
(** * The aligner ([frontend/src/components/AudioProcessor.ts])             *)
(* ====================================================================== *)

Module AudioProcessor.

Open Scope nat_scope.

(** ** Strings

    A JavaScript string is a sequence of UTF-16 code units; [length],
    [indexOf] and the character-to-word table all count code units. *)

Definition jsstring : Type := list N.

Definition js (s : string) : jsstring :=
  map N_of_ascii (list_ascii_of_string s).

(** The class [\s] of a regular expression, which is also the set removed
    by [trim]: white space and line terminators. *)
Definition is_space (c : N) : bool :=
  (existsb (N.eqb c)
     [9; 10; 11; 12; 13; 32; 160; 5760; 8232; 8233; 8239; 8287; 12288; 65279]
   || ((8192 <=? c) && (c <=? 8202)))%N.

(** The class [[.!?]]. *)
Definition is_sentence_end (c : N) : bool :=
  existsb (N.eqb c) [46; 33; 63]%N.

Fixpoint trimStart (s : jsstring) : jsstring :=
  match s with
  | c :: rest => if is_space c then trimStart rest else s
  | [] => []
  end.

Definition trim (s : jsstring) : jsstring :=
  rev (trimStart (rev (trimStart s))).

(** [s.replace(/\n/g, '')] *)
Definition removeNewlines (s : jsstring) : jsstring :=
  filter (fun c => negb (c =? 10)%N) s.

(** [s.replace(/\s+/g, ' ')]; [inRun] tells that the previous code unit
    belonged to the run of white space being replaced. *)
Fixpoint collapseSpaces (inRun : bool) (s : jsstring) : jsstring :=
  match s with
  | [] => []
  | c :: rest =>
      if is_space c
      then if inRun then collapseSpaces true rest
           else 32%N :: collapseSpaces true rest
      else c :: collapseSpaces false rest
  end.

(** [s.split(/(?<=[.!?])\s+/)]: a separator is a maximal run of white space
    whose first code unit follows one of [.!?]. [prev] is the code unit
    before the position, [inSep] tells that a separator is being consumed,
    [piece] is the piece read so far. *)
Fixpoint splitSentences (prev : option N) (inSep : bool) (piece : jsstring)
    (s : jsstring) : list jsstring :=
  match s with
  | [] => [piece]
  | c :: rest =>
      if is_space c then
        if inSep then splitSentences (Some c) true piece rest
        else
          match prev with
          | Some p =>
              if is_sentence_end p
              then piece :: splitSentences (Some c) true [] rest
              else splitSentences (Some c) false (piece ++ [c]) rest
          | None => splitSentences (Some c) false (piece ++ [c]) rest
          end
      else splitSentences (Some c) false (piece ++ [c]) rest
  end.

Definition is_empty (s : jsstring) : bool :=
  match s with [] => true | _ => false end.

Fixpoint startsWith (s pat : jsstring) : bool :=
  match pat, s with
  | [], _ => true
  | p :: pat', c :: s' => (p =? c)%N && startsWith s' pat'
  | _ :: _, [] => false
  end.

(** The scan of [indexOf]: [s] is the text from offset [k] on. *)
Fixpoint indexFrom (s pat : jsstring) (k : nat) : option nat :=
  if startsWith s pat then Some k
  else match s with
       | [] => None
       | _ :: s' => indexFrom s' pat (S k)
       end.

(** [s.indexOf(pat, position)] for [position >= 0]; [None] stands for
    [-1]. A position beyond the end is clamped to the length. *)
Definition indexOf (s pat : jsstring) (position : nat) : option nat :=
  indexFrom (skipn position s) pat (Nat.min position (List.length s)).

(** [String(n)] for a non-negative integer. *)
Definition decimal (n : nat) : jsstring :=
  js (DecimalString.NilEmpty.string_of_uint (Nat.to_uint n)).

(** ** Types *)

Record WordTimestamp := mkWord {
  word : jsstring;
  start : Q;
  end_ : Q
}.

Record TranscriptionSegment := mkTranscriptionSegment {
  segment_text : jsstring;
  words : option (list WordTimestamp)     (* read as [segment.words || []] *)
}.

Record TranscriptionResult := mkTranscriptionResult {
  segments : list TranscriptionSegment;
  result_text : jsstring
}.

(** [audioBlob] is never set by the aligner and is left out. *)
Record AudioSegment := mkAudioSegment {
  id : jsstring;
  text : jsstring;
  startTime : Q;
  endTime : Q
}.

(** ** [tokenizeSentences] *)

Definition tokenizeSentences (t : jsstring) : list jsstring :=
  let cleanText := trim (collapseSpaces false t) in
  let sentences :=
    map trim
      (filter (fun sentence => negb (is_empty (trim sentence)))
         (splitSentences None false [] cleanText)) in
  sentences.

(** ** [buildCharToWordMapping] *)

Fixpoint charToWordFrom (wordIdx : nat) (ws : list WordTimestamp) : list nat :=
  match ws with
  | [] => []
  | w :: rest => repeat wordIdx (List.length (word w)) ++ charToWordFrom (S wordIdx) rest
  end.

Definition buildCharToWordMapping (ws : list WordTimestamp) : list nat :=
  charToWordFrom 0 ws.

(** ** [processTranscriptionIntoSegments] *)

(** [x || 0] for a number or [undefined]. *)
Definition orZero (x : option Q) : Q :=
  match x with
  | Some v => if Qeq_bool v 0 then 0%Q else v
  | None => 0%Q
  end.

(** [words[idx]?.field] where [idx] itself may be [undefined]. *)
Definition wordField (field : WordTimestamp -> Q) (ws : list WordTimestamp)
    (idx : option nat) : option Q :=
  match idx with
  | Some k => option_map field (nth_error ws k)
  | None => None
  end.

Definition gatherWords (result : TranscriptionResult) : list WordTimestamp :=
  flat_map (fun segment => match words segment with Some ws => ws | None => [] end)
    (segments result).

Definition buildFullText (ws : list WordTimestamp) : jsstring :=
  trim (removeNewlines (List.concat (map word ws))).

(** The variables the [for] loop updates. *)
Record LoopState := mkLoopState {
  audioSegments : list AudioSegment;
  prevEnd : nat
}.

Section Loop.

Variable ws : list WordTimestamp.
Variable fullText : jsstring.
Variable charToWord : list nat.

(** One iteration, for the sentence [sentences[i]]; each [continue] leaves
    the state as it is. *)
Definition iteration (st : LoopState) (entry : nat * jsstring) : LoopState :=
  let (i, s) := entry in
  let sentence := trim s in
  if is_empty sentence then st else
  (* Find sentence position in full text *)
  match indexOf fullText sentence (prevEnd st) with
  | None => st
  | Some start_ =>
      let end' := start_ + List.length sentence in
      (* Ensure we don't go out of bounds *)
      if (List.length charToWord <=? start_) || (List.length charToWord <=? end' - 1)
      then st
      else
        let wordStartIdx := nth_error charToWord start_ in
        let wordEndIdx := nth_error charToWord (end' - 1) in
        let startTime := orZero (wordField start ws wordStartIdx) in
        let endTime := orZero (wordField end_ ws wordEndIdx) in
        let audioSegment :=
          {| id := js "segment_" ++ decimal (i + 1);
             text := sentence;
             startTime := startTime;
             endTime := endTime |} in
        {| audioSegments := audioSegments st ++ [audioSegment];
           prevEnd := end' |}
  end.

Definition runLoop (st : LoopState) (entries : list (nat * jsstring)) : LoopState :=
  fold_left iteration entries st.

End Loop.

(** The pairs [(i, sentences[i])] the loop visits. *)
Definition entries (sentences : list jsstring) : list (nat * jsstring) :=
  combine (seq 0 (List.length sentences)) sentences.

Definition initialLoopState : LoopState :=
  {| audioSegments := []; prevEnd := 0 |}.

(** The value the returned promise resolves to. *)
Definition processTranscriptionIntoSegments (result : TranscriptionResult)
    : list AudioSegment :=
  let ws := gatherWords result in
  if List.length ws =? 0 then [] else
  let fullText := buildFullText ws in
  let sentences := tokenizeSentences fullText in
  let charToWord := buildCharToWordMapping ws in
  audioSegments
    (runLoop ws fullText charToWord initialLoopState (entries sentences)).

(** ** Word timings and segment order *)

(** The timing the data model requires of the words: times are not
    negative, no word ends before it starts, and start and end times do not
    decrease from one word to the next. *)
Definition word_ok (w : WordTimestamp) : bool :=
  Qle_bool 0 (start w) && Qle_bool (start w) (end_ w).

Fixpoint nondecreasing (ws : list WordTimestamp) : bool :=
  match ws with
  | [] => true
  | a :: rest =>
      match rest with
      | [] => true
      | b :: _ => Qle_bool (start a) (start b) && Qle_bool (end_ a) (end_ b)
      end
      && nondecreasing rest
  end.

Definition well_timed (ws : list WordTimestamp) : bool :=
  forallb word_ok ws && nondecreasing ws.

(** The word takes time: [start < end]. *)
Definition lasting (w : WordTimestamp) : bool :=
  negb (Qle_bool (end_ w) (start w)).

Definition ordered_by_start (segs : list AudioSegment) : Prop :=
  forall (i j : nat) (a b : AudioSegment),
    i <= j -> nth_error segs i = Some a -> nth_error segs j = Some b ->
    (startTime a <= startTime b)%Q.

(** The segment the loop pushes for sentence [i] found at offset [start_]. *)
Definition segmentFor (ws : list WordTimestamp) (charToWord : list nat)
    (i : nat) (sentence : jsstring) (start_ : nat) : AudioSegment :=
  {| id := js "segment_" ++ decimal (i + 1);
     text := sentence;
     startTime := orZero (wordField start ws (nth_error charToWord start_));
     endTime :=
       orZero (wordField end_ ws
                 (nth_error charToWord (start_ + List.length sentence - 1))) |}.

(** ** The invariant of the loop *)

(** Every word at or after offset [bound] of the table starts no earlier
    than the segment. *)
Definition starts_before (ws : list WordTimestamp) (charToWord : list nat)
    (seg : AudioSegment) (bound : nat) : Prop :=
  forall (o x : nat) (w : WordTimestamp),
    bound <= o -> nth_error charToWord o = Some x -> nth_error ws x = Some w ->
    (startTime seg <= start w)%Q.

(** What the loop keeps true of its variables when the words are well
    timed. *)
Definition loop_invariant (ws : list WordTimestamp) (fullText : jsstring)
    (charToWord : list nat) (st : LoopState) : Prop :=
  prevEnd st <= List.length fullText /\
  ordered_by_start (audioSegments st) /\
  Forall (fun seg => (startTime seg <= endTime seg)%Q) (audioSegments st) /\
  (forallb lasting ws = true ->
   Forall (fun seg => (startTime seg < endTime seg)%Q) (audioSegments st)) /\
  Forall (fun seg => starts_before ws charToWord seg (prevEnd st)) (audioSegments st).

(** ** Example transcripts *)

Module Example.

Definition transcript (ws : list WordTimestamp) : TranscriptionResult :=
  {| segments := [ {| segment_text := []; words := Some ws |} ];
     result_text := [] |}.

(** A single word to which the recogniser gave no duration. *)
Definition still : TranscriptionResult :=
  transcript [ {| word := js "Hi."; start := 1; end_ := 1 |} ].

(** The second sentence is written with two spaces in the words, which the
    tokenizer normalises to one. *)
Definition two_spaces : TranscriptionResult :=
  transcript
    [ {| word := js "One."; start := 0; end_ := 1 |};
      {| word := js " A"; start := 1; end_ := 2 |};
      {| word := js "  b."; start := 2; end_ := 3 |};
      {| word := js " Two."; start := 3; end_ := 4 |} ].

End Example.

End AudioProcessor.

(* ====================================================================== *)
(** * More of the playback controller ([upolly/src/App.tsx])               *)
(* ====================================================================== *)

Module PlayerControls.

Import Player.
Open Scope Z_scope.

Section Controls.

Variable state : AppState.
Variable audioRef : option HTMLAudioElement.

Definition togglePlayPause : Stmt :=
  match audioRef with
  | None => ret
  | Some _ => if isPlaying state then act Pause else act Play
  end.

Definition goToPrevSentence : Stmt :=
  if 0 <? currentSentenceIndex state then
    call (jumpToSentence state audioRef (currentSentenceIndex state - 1))
  else if 0 <? length (sentences state) then
    call (jumpToSentence state audioRef 0)
  else skip.

Definition goToNextSentence : Stmt :=
  if currentSentenceIndex state <? length (sentences state) - 1 then
    call (jumpToSentence state audioRef (currentSentenceIndex state + 1))
  else skip.


End Controls.

(** The state and the commands of one handler run to completion. *)
Definition after (state : AppState) (handler : Stmt) : AppState :=
  commit state (fst handler).

Definition sent (handler : Stmt) : list Action := commands (fst handler).



(** The commands a sample may issue. *)
Definition scheduled_or_pause (a : Action) : Prop :=
  match a with
  | SetTimeout (SeekTo _) _ | Pause => True
  | _ => False
  end.

(** ** More states of the example session *)

Module Session.

Import Player.Session.


(** The second, and last, sentence is active. *)
Definition at_last : AppState := sample repeating (6 # 1).


End Session.

End PlayerControls.

(* ====================================================================== *)
(** * Choosing and submitting a file ([upolly/src/App.tsx])                *)
(* ====================================================================== *)

Module Upload.

Import Player PlayerControls.
Open Scope string_scope.
Open Scope Z_scope.

(** ** Strings

    The names, types and messages are strings of code units below 256. *)

(** [s.startsWith(p)] *)
Definition startsWith (s p : string) : bool := String.prefix p s.

(** [s.includes(p)] *)
Definition includes (s p : string) : bool :=
  match String.index 0 p s with
  | Some _ => true
  | None => false
  end.

(** [arr.includes(s)] for an array of strings. *)
Definition listed (arr : list string) (s : string) : bool :=
  existsb (String.eqb s) arr.

(** The letter a case-insensitive pattern letter matches. *)
Definition lowerCase (c : ascii) : ascii :=
  let n := nat_of_ascii c in
  if (65 <=? n)%nat && (n <=? 90)%nat then ascii_of_nat (n + 32) else c.

Fixpoint toLowerCase (s : string) : string :=
  match s with
  | EmptyString => EmptyString
  | String c rest => String (lowerCase c) (toLowerCase rest)
  end.

Definition endsWith (s suffix : string) : bool :=
  (String.length suffix <=? String.length s)%nat
  && String.eqb
       (substring (String.length s - String.length suffix) (String.length suffix) s)
       suffix.

(** [String(n)] for a non-negative integer. *)
Definition decimal (n : Z) : string :=
  NilEmpty.string_of_uint (Nat.to_uint (Z.to_nat n)).

(** [(size / 1024 / 1024).toFixed(1)]: the divisions by powers of two are
    exact, and [toFixed] rounds the exact value to the nearest tenth, a tie
    going up. *)
Definition megabytes (size : Z) : string :=
  let tenths := (20 * size + 1048576) / 2097152 in
  decimal (tenths / 10) ++ "." ++ decimal (tenths mod 10).

(** ** [validateFile] *)

Definition audioTypes : list string :=
  ["audio/mpeg"; "audio/mp3"; "audio/wav"; "audio/m4a";
   "audio/aac"; "audio/ogg"; "audio/flac"; "audio/webm";
   "audio/mp4"; "audio/x-m4a"].

(** The alternatives of [/\.(mp3|wav|m4a|aac|ogg|flac|webm)$/i]. *)
Definition audioExtensions : list string :=
  ["mp3"; "wav"; "m4a"; "aac"; "ogg"; "flac"; "webm"].

Definition hasAudioExtension (name : string) : bool :=
  existsb (fun ext => endsWith (toLowerCase name) ("." ++ ext)) audioExtensions.

Section Handlers.

Variable state : AppState.

Definition maxSize : Z :=
  if isMobile state then 100 * 1024 * 1024 else 500 * 1024 * 1024.

Definition validateFile (file : File) : option string :=
  (* Check file size (mobile limit: 100MB) *)
  if maxSize <? file_size file then
    Some ("File too large! Maximum size: "
          ++ (if isMobile state then "100MB" else "500MB"))
  else
    (* Check file type *)
    let isValidAudio :=
      listed audioTypes (file_type file)
      || startsWith (file_type file) "audio/"
      || hasAudioExtension (file_name file) in
    if negb isValidAudio then
      Some "Please select a valid audio file (MP3, WAV, M4A, AAC, OGG, FLAC)"
    else None.

(** ** [handleFileChange]; [file] is [e.target.files?.[0]]. *)
Definition handleFileChange (file : option File) : Stmt :=
  match file with
  | None =>
      updateState
        [set_selectedFile None;
         set_uploadMessage
           (if isMobile state then "No file selected. Please try again." else "")] ;;
      ret
  | Some f =>
      match validateFile f with
      | Some validationError =>
          updateState
            [set_selectedFile None;
             set_uploadMessage ("❌ " ++ validationError);
             set_showMobileHelp (isMobile state)] ;;
          ret
      | None =>
          updateState
            [set_selectedFile (Some f);
             set_uploadMessage
               ("✅ Selected: " ++ file_name f
                ++ " (" ++ megabytes (file_size f) ++ "MB)");
             set_showMobileHelp false]
      end
  end.

(** ** [handleSubmit]

    The part that runs before the request is sent, and the [catch] block
    that runs when the request or the processing of its response fails. *)
Definition handleSubmit : Stmt :=
  match selectedFile state with
  | None =>
      updateState
        [set_uploadMessage "Please select a file first.";
         set_showMobileHelp (isMobile state)] ;;
      ret
  | Some _ =>
      if isUploading state then ret
      else
        updateState
          [set_uploadMessage "⏳ Uploading and processing... Please wait.";
           set_sentences [];
           set_isUploading true] ;;
        call resetAudioState
  end.

Definition handleSubmitFailed (errorMessage : string) : Stmt :=
  let mobileSpecificMessage :=
    if isMobile state then
      if includes errorMessage "NetworkError"
         || includes errorMessage "Failed to fetch" then
        " This might be due to mobile network restrictions. Try refreshing the page and uploading again."
      else if includes errorMessage "timeout" then
        " Mobile upload timed out. Try a smaller file or better network connection."
      else ""
    else "" in
  updateState
    [set_uploadMessage ("❌ Upload failed: " ++ errorMessage ++ mobileSpecificMessage);
     set_showForm false;
     set_selectedFile None;
     set_showMobileHelp (isMobile state);
     set_isUploading false].

End Handlers.

(** ** Commands of the user

    The handlers behind the buttons and the file form, beside the events of
    [Player.Event].  The [catch] block of [handleSubmit] runs on the state
    of the render in which the form was submitted. *)
Inductive Command :=
| cmd_previous
| cmd_next
| cmd_playPause
| cmd_fileChange (file : option File)
| cmd_submit
| cmd_submitFailed (submitted : AppState) (errorMessage : string).

Definition perform (state : AppState) (audioRef : option HTMLAudioElement)
    (c : Command) : Stmt :=
  match c with
  | cmd_previous => call (goToPrevSentence state audioRef)
  | cmd_next => call (goToNextSentence state audioRef)
  | cmd_playPause => call (togglePlayPause state audioRef)
  | cmd_fileChange file => call (handleFileChange state file)
  | cmd_submit => call (handleSubmit state)
  | cmd_submitFailed submitted errorMessage =>
      call (handleSubmitFailed submitted errorMessage)
  end.

(** States the application can be in when the commands occur as well. *)
Inductive reachable_with_commands : AppState -> Prop :=
| reachable_at_start : reachable_with_commands initialState
| reachable_by_event : forall state audioRef ev,
    reachable_with_commands state ->
    reachable_with_commands (step state audioRef ev)
| reachable_by_command : forall state audioRef c,
    reachable_with_commands state ->
    reachable_with_commands (after state (perform state audioRef c)).

(** ** Example files *)

Definition recording : File :=
  {| file_name := "Lesson 1.MP3"; file_type := ""; file_size := 3 * 1024 * 1024 |}.

Definition choosing : AppState :=
  after initialState (handleFileChange initialState (Some recording)).

End Upload.

(* ====================================================================== *)
(** * More about the aligner ([frontend/src/components/AudioProcessor.ts]) *)
(* ====================================================================== *)

Module Alignment.

Import AudioProcessor.
Open Scope nat_scope.

(** [sentences.join(' ')] *)
Fixpoint joinWithSpace (sentences : list jsstring) : jsstring :=
  match sentences with
  | [] => []
  | [s] => s
  | s :: rest => s ++ 32%N :: joinWithSpace rest
  end.

(** [clean prevSpace s]: the only white space of [s] is the single space
    U+0020, never twice in a row, and [s] does not end with one; [prevSpace]
    tells that a space comes just before [s]. *)
Fixpoint clean (prevSpace : bool) (s : jsstring) : bool :=
  match s with
  | [] => negb prevSpace
  | c :: rest =>
      if is_space c then (c =? 32)%N && negb prevSpace && clean true rest
      else clean false rest
  end.

(** A sentence as the tokenizer returns it: not empty, no white space at
    either end, words separated by single spaces. *)
Definition tidy (s : jsstring) : Prop := clean true s = true.

Definition endsSentence (s : jsstring) : Prop :=
  exists (init : jsstring) (c : N), s = init ++ [c] /\ is_sentence_end c = true.

(** The text of all the words, before any trimming. *)
Definition wholeText (ws : list WordTimestamp) : jsstring :=
  List.concat (map word ws).

(** [s.substring(o, o + n)] *)
Definition substring (s : jsstring) (o n : nat) : jsstring :=
  firstn n (skipn o s).

(** The word [k] occupies the offsets from [spanStart ws k] on. *)
Definition spanStart (ws : list WordTimestamp) (k : nat) : nat :=
  List.length (wholeText (firstn k ws)).

(** What the loop has pushed: the number of the sentence, the sentence, and
    the offset at which it was found. *)
Record Found := mkFound {
  number : nat;
  sentence : jsstring;
  offset : nat
}.

Definition foundSegment (ws : list WordTimestamp) (charToWord : list nat)
    (f : Found) : AudioSegment :=
  segmentFor ws charToWord (number f) (trim (sentence f)) (offset f).

(** The finds of a run lie one after the other: each sentence is found at
    or after [cursor], the end of the one before, as it stands in the full
    text, and within the character-to-word table of length [tableLength]. *)
Fixpoint chained (fullText : jsstring) (tableLength cursor : nat)
    (fs : list Found) : Prop :=
  match fs with
  | [] => True
  | f :: rest =>
      let n := List.length (trim (sentence f)) in
      1 <= n /\
      cursor <= offset f /\
      substring fullText (offset f) n = trim (sentence f) /\
      offset f + n <= List.length fullText /\
      offset f + n <= tableLength /\
      chained fullText tableLength (offset f + n) rest
  end.

(** The numbers go up, starting at [lo] or later. *)
Fixpoint increasing (lo : nat) (numbers : list nat) : Prop :=
  match numbers with
  | [] => True
  | i :: rest => lo <= i /\ increasing (S i) rest
  end.

(** Spans [(offset, length)] that follow one another without overlap, the
    first at [cursor] or later. *)
Fixpoint laid_out (cursor : nat) (spans : list (nat * nat)) : Prop :=
  match spans with
  | [] => True
  | (o, n) :: rest => cursor <= o /\ laid_out (o + n) rest
  end.

(** As [clean], but a space at the end is accepted. *)
Fixpoint spaced (prevSpace : bool) (s : jsstring) : bool :=
  match s with
  | [] => true
  | c :: rest =>
      if is_space c then (c =? 32)%N && negb prevSpace && spaced true rest
      else spaced false rest
  end.

(** Whether [l], which follows a space or not as [b] tells, ends with white
    space. *)
Definition endsInSpace (b : bool) (l : jsstring) : bool :=
  fold_left (fun _ c => is_space c) l b.

(** What holds of the pieces cut from the tidy text [whole]: they are tidy,
    all but the last end a sentence, and joined by single spaces they give
    the text back. *)
Definition cut_well (whole : jsstring) (pieces : list jsstring) : Prop :=
  joinWithSpace pieces = whole /\
  Forall tidy pieces /\
  exists (firsts : list jsstring) (final : jsstring),
    pieces = firsts ++ [final] /\ Forall endsSentence firsts.

(** ** Example words *)

(** Three sentences, the second of which cannot be found. *)
Definition spoken : list WordTimestamp :=
  gatherWords Example.two_spaces.

End Alignment.

(* ====================================================================== *)
(** * Properties of the playback controller                                *)
(* ====================================================================== *)

Module PlayerProofs.

Import Player.
Open Scope Z_scope.

(** ** Array access *)

Lemma index_valid : forall A (arr : list A) (idx : Z),
  valid_index arr idx -> exists x, index arr idx = Some x.
Proof.
  intros A arr idx [Hlo Hhi]. unfold index, length in *.
  destruct (idx <? 0) eqn:E; [apply Z.ltb_lt in E; lia|].
  destruct (nth_error arr (Z.to_nat idx)) as [x|] eqn:N.
  - now exists x.
  - apply nth_error_None in N. lia.
Qed.

Lemma index_some_valid : forall A (arr : list A) (idx : Z) (x : A),
  index arr idx = Some x -> valid_index arr idx.
Proof.
  intros A arr idx x H. unfold index, valid_index, length in *.
  destruct (idx <? 0) eqn:E; [discriminate|].
  apply Z.ltb_ge in E.
  assert (Hn : (Z.to_nat idx < List.length arr)%nat).
  { apply nth_error_Some. congruence. }
  lia.
Qed.

Lemma index_out_of_range : forall A (arr : list A) (idx : Z),
  idx < 0 \/ length arr <= idx -> index arr idx = None.
Proof.
  intros A arr idx H. unfold index, length in *.
  destruct (idx <? 0) eqn:E; [reflexivity|].
  apply Z.ltb_ge in E. apply nth_error_None. lia.
Qed.

(** ** Case analysis of the handlers *)

Ltac split_ifs :=
  repeat match goal with
    | |- context [match index ?a ?i with _ => _ end] => destruct (index a i) eqn:?
    | |- context [if ?b then _ else _] => destruct b eqn:?
    end.

Ltac bool_facts :=
  repeat match goal with
    | H : negb _ = true |- _ => apply negb_true_iff in H
    | H : negb _ = false |- _ => apply negb_false_iff in H
    | H : _ && _ = true |- _ => apply andb_true_iff in H; destruct H
    | H : _ || _ = false |- _ => apply orb_false_iff in H; destruct H
    | H : (_ <? _) = true |- _ => apply Z.ltb_lt in H
    | H : (_ <? _) = false |- _ => apply Z.ltb_ge in H
    | H : (_ <=? _) = true |- _ => apply Z.leb_le in H
    | H : (_ <=? _) = false |- _ => apply Z.leb_gt in H
    | H : (_ =? _) = true |- _ => apply Z.eqb_eq in H
    | H : (_ =? _) = false |- _ => apply Z.eqb_neq in H
    end.

Ltac index_facts :=
  repeat match goal with
    | H : index _ _ = Some _ |- _ =>
        apply index_some_valid in H; unfold valid_index in H
    end.

Ltac unfold_handlers :=
  unfold sample, sample_commands, playing_at, step, issued, dispatch, listening,
    handleTimeUpdate, updateCurrentSentence, handleRepeatLogic, handleEnded,
    handlePlay, handlePause, jumpToSentence, changeSpeed, uploadProcessed,
    uploadStarted.

Ltac finish_cases :=
  repeat split; try intros; try discriminate; try congruence; try lia.

(** One control path of one handler at a time; [Hr] tells whether a cycle is
    running. *)
Ltac by_cases Hr :=
  unfold_handlers;
  try match goal with
      | audioRef : option HTMLAudioElement |- _ => destruct audioRef
      end;
  rewrite ?Hr; split_ifs; cbn -[findSentence index length]; rewrite ?Hr;
  bool_facts; index_facts; finish_cases.

(** ** [handleRepeatCountChange] *)

(** C10: [handleRepeatCountChange] writes the [repeatCount] field and nothing
    else. The running cycle ([isRepeating], [currentRepeat],
    [repeatSentenceIndex]), the active sentence and every other field keep
    their values, and no command is sent to the transport. *)
Theorem handleRepeatCountChange_only_writes_repeatCount :
  forall (state : AppState) (audioRef : option HTMLAudioElement) (count : Z),
    let state' := step state audioRef (ev_repeatCount count) in
    repeatCount state' = count /\
    isRepeating state' = isRepeating state /\
    currentRepeat state' = currentRepeat state /\
    repeatSentenceIndex state' = repeatSentenceIndex state /\
    currentSentenceIndex state' = currentSentenceIndex state /\
    repeatMode state' = repeatMode state /\
    isPlaying state' = isPlaying state /\
    currentTime state' = currentTime state /\
    playbackSpeed state' = playbackSpeed state /\
    sentences state' = sentences state /\
    audioFilename state' = audioFilename state /\
    audioUrl state' = audioUrl state /\
    showForm state' = showForm state /\
    selectedFile state' = selectedFile state /\
    uploadMessage state' = uploadMessage state /\
    isMobile state' = isMobile state /\
    showMobileHelp state' = showMobileHelp state /\
    isUploading state' = isUploading state /\
    issued state audioRef (ev_repeatCount count) = [].
Proof.
  intros state audioRef count. cbn. repeat split; reflexivity.
Qed.

(** C4, as the code has it: [handleRepeatCountChange] stores its argument as
    it is, without clamping; the stored count is at least 1 whenever the
    argument is one of the values the repeat-count selector offers. *)
Theorem handleRepeatCountChange_stores_argument :
  forall (state : AppState) (audioRef : option HTMLAudioElement) (count : Z),
    repeatCount (step state audioRef (ev_repeatCount count)) = count /\
    (In count repeatCountOptions ->
     1 <= repeatCount (step state audioRef (ev_repeatCount count))).
Proof.
  intros state audioRef count. split; [reflexivity|].
  cbn. intros H. repeat (destruct H as [H|H]; [lia|]). contradiction.
Qed.

Lemma handleRepeatCountChange_stores_argument_witness :
  In 5 repeatCountOptions /\
  1 <= repeatCount (step initialState None (ev_repeatCount 5)).
Proof.
  split.
  - cbn. tauto.
  - apply (handleRepeatCountChange_stores_argument initialState None 5). cbn. tauto.
Defined.

(** C4 fails as stated: called with 0, the stored count is 0, not 1. *)
Lemma handleRepeatCountChange_does_not_clamp :
  0 < 1 /\
  repeatCount (step initialState None (ev_repeatCount 0)) = 0 /\
  repeatCount (step initialState None (ev_repeatCount 0)) <> 1 /\
  ~ 1 <= repeatCount (step initialState None (ev_repeatCount 0)).
Proof.
  cbn. repeat split; lia.
Qed.

(** ** [jumpToSentence] *)

(** C5: with the audio element mounted, a jump to an existing sentence sets
    the active index to it, seeks to its start and clears the repeat cycle,
    whatever the cycle was doing. *)
Theorem jumpToSentence_in_range :
  forall (state : AppState) (audio : HTMLAudioElement) (idx : Z) (target : Sentence),
    index (sentences state) idx = Some target ->
    let state' := step state (Some audio) (ev_jumpToSentence idx) in
    currentSentenceIndex state' = idx /\
    isRepeating state' = false /\
    currentRepeat state' = 0 /\
    repeatSentenceIndex state' = -1 /\
    issued state (Some audio) (ev_jumpToSentence idx) = [Seek (start target)].
Proof.
  intros state audio idx target H.
  unfold step, issued, dispatch, jumpToSentence. rewrite H. cbn.
  repeat split; reflexivity.
Qed.

Lemma jumpToSentence_in_range_witness :
  index (sentences Session.mid_cycle) 1 = Some Session.second /\
  isRepeating Session.mid_cycle = true /\
  currentRepeat Session.mid_cycle = 1 /\
  currentSentenceIndex
    (step Session.mid_cycle (playing_at (49 # 10)) (ev_jumpToSentence 1)) = 1 /\
  isRepeating
    (step Session.mid_cycle (playing_at (49 # 10)) (ev_jumpToSentence 1)) = false /\
  currentRepeat
    (step Session.mid_cycle (playing_at (49 # 10)) (ev_jumpToSentence 1)) = 0 /\
  issued Session.mid_cycle (playing_at (49 # 10)) (ev_jumpToSentence 1) =
    [Seek (start Session.second)].
Proof.
  assert (Hidx : index (sentences Session.mid_cycle) 1 = Some Session.second)
    by reflexivity.
  destruct (@jumpToSentence_in_range Session.mid_cycle
              {| audio_currentTime := 49 # 10; paused := false |} 1 Session.second Hidx)
    as (Hcur & Hrep & Hcount & _ & Hseek).
  split; [exact Hidx | split; [reflexivity | split; [reflexivity |]]].
  exact (conj Hcur (conj Hrep (conj Hcount Hseek))).
Defined.

(** C8: a jump to an index outside the sentence list changes no field of the
    state and sends no command, with or without an audio element. *)
Theorem jumpToSentence_out_of_range :
  forall (state : AppState) (audioRef : option HTMLAudioElement) (idx : Z),
    idx < 0 \/ length (sentences state) <= idx ->
    step state audioRef (ev_jumpToSentence idx) = state /\
    issued state audioRef (ev_jumpToSentence idx) = [].
Proof.
  intros state audioRef idx H.
  unfold step, issued, dispatch, jumpToSentence.
  rewrite (index_out_of_range _ H).
  destruct audioRef; split; reflexivity.
Qed.

Lemma jumpToSentence_out_of_range_witness :
  (2 < 0 \/ length (sentences Session.mid_cycle) <= 2) /\
  step Session.mid_cycle (playing_at (49 # 10)) (ev_jumpToSentence 2) =
    Session.mid_cycle /\
  issued Session.mid_cycle (playing_at (49 # 10)) (ev_jumpToSentence 2) = [].
Proof.
  assert (Hout : 2 < 0 \/ length (sentences Session.mid_cycle) <= 2).
  { right. vm_compute. discriminate. }
  split; [exact Hout|].
  exact (@jumpToSentence_out_of_range Session.mid_cycle (playing_at (49 # 10)) 2 Hout).
Defined.

(** ** [updateCurrentSentence] *)

(** The loop returns [-1] when no sentence contains [t], and otherwise the
    position of the first one that does. *)
Lemma findSentence_first : forall (segs : list Sentence) (i : Z) (t : Q),
  (findSentence segs i t = -1 /\ forall s, In s segs -> contains s t = false) \/
  (exists (k : nat) (s : Sentence),
      findSentence segs i t = i + Z.of_nat k /\
      nth_error segs k = Some s /\ contains s t = true /\
      forall (j : nat) (sj : Sentence),
        (j < k)%nat -> nth_error segs j = Some sj -> contains sj t = false).
Proof.
  induction segs as [|a rest IH]; intros i t.
  - left. split; [reflexivity | intros s []].
  - cbn [findSentence]. fold (contains a t).
    destruct (contains a t) eqn:Ha.
    + right. exists 0%nat, a. repeat split; [lia | assumption | intros j sj Hj; lia].
    + destruct (IH (i + 1) t) as [[Hr Hnone] | (k & s & Hr & Hk & Hs & Hfirst)].
      * left. split; [assumption|]. intros s [<- | Hin]; auto.
      * right. exists (S k), s. repeat split; [lia | assumption | assumption |].
        intros [|j] sj Hj Hsj; cbn in Hsj.
        -- congruence.
        -- apply (Hfirst j sj); [lia | assumption].
Qed.

(** The same, for the call made by [updateCurrentSentence] and in terms of
    array indices. *)
Lemma findSentence_index : forall (segs : list Sentence) (t : Q),
  let found := findSentence segs 0 t in
  (found = -1 /\
   forall (j : Z) (sj : Sentence), index segs j = Some sj -> contains sj t = false) \/
  (exists s : Sentence,
      index segs found = Some s /\ contains s t = true /\
      forall (j : Z) (sj : Sentence),
        0 <= j < found -> index segs j = Some sj -> contains sj t = false).
Proof.
  intros segs t found. subst found.
  destruct (findSentence_first segs 0 t) as [[Hr Hnone] | (k & s & Hr & Hk & Hs & Hfirst)].
  - left. split; [assumption|]. intros j sj Hj. apply Hnone.
    unfold index in Hj. destruct (j <? 0); [discriminate|].
    eapply nth_error_In; eassumption.
  - right. exists s. rewrite Hr. repeat split.
    + unfold index. cbn. rewrite Nat2Z.id.
      destruct (Z.of_nat k <? 0) eqn:E; [apply Z.ltb_lt in E; lia | assumption].
    + assumption.
    + intros j sj Hj Hsj. unfold index in Hsj.
      destruct (j <? 0); [discriminate|].
      apply (Hfirst (Z.to_nat j) sj); [lia | assumption].
Qed.

Lemma findSentence_range : forall (segs : list Sentence) (t : Q),
  -1 <= findSentence segs 0 t < length segs.
Proof.
  intros segs t.
  destruct (findSentence_first segs 0 t) as [[Hr _] | (k & s & Hr & Hk & _)].
  - rewrite Hr. unfold length. lia.
  - rewrite Hr. unfold length.
    assert (k < List.length segs)%nat by (apply nth_error_Some; congruence). lia.
Qed.

(** The index found is the first one whose sentence contains [t]. *)
Lemma findSentence_unique : forall (segs : list Sentence) (t : Q) (i : Z) (a : Sentence),
  index segs i = Some a ->
  contains a t = true ->
  (forall (j : Z) (sj : Sentence),
      0 <= j < i -> index segs j = Some sj -> contains sj t = false) ->
  findSentence segs 0 t = i.
Proof.
  intros segs t i a Hi Ha Hbefore.
  pose proof (index_some_valid _ _ Hi) as [Hi0 _].
  destruct (findSentence_index segs t) as [[_ Hnone] | (s & Hs & Hc & Hfirst)].
  - rewrite (Hnone i a Hi) in Ha. discriminate.
  - pose proof (index_some_valid _ _ Hs) as [Hf0 _].
    destruct (Z.lt_trichotomy (findSentence segs 0 t) i) as [Hlt | [Heq | Hgt]].
    + rewrite (Hbefore _ s (conj Hf0 Hlt) Hs) in Hc. discriminate.
    + assumption.
    + rewrite (Hfirst i a (conj Hi0 Hgt) Hi) in Ha. discriminate.
Qed.

(** In a well-ordered list, a sentence that ends at [t] is preceded only by
    sentences that end before [t]. *)
Lemma well_ordered_before : forall (segs : list Sentence) (k j : nat) (a sj : Sentence),
  well_ordered segs ->
  (j < k)%nat ->
  nth_error segs k = Some a -> nth_error segs j = Some sj ->
  (end_ sj <= start a)%Q.
Proof.
  induction segs as [|x rest IH]; intros k j a sj Hwo Hjk Hk Hj.
  - destruct k; discriminate.
  - destruct Hwo as (Hx & Hnext & Hrest).
    destruct k as [|k]; [lia|]. cbn in Hk.
    destruct j as [|j]; cbn in Hj.
    + injection Hj as <-.
      destruct rest as [|y rest']; [destruct k; discriminate|].
      destruct k as [|k]; cbn in Hk.
      * injection Hk as <-. assumption.
      * pose proof Hrest as (Hy & _ & _).
        apply Qle_trans with (start y); [assumption|].
        apply Qle_trans with (end_ y); [apply Qlt_le_weak; assumption|].
        apply (IH (S k) 0%nat a y); [assumption | lia | assumption | reflexivity].
    + apply (IH k j a sj); [assumption | lia | assumption | assumption].
Qed.

Lemma well_ordered_nth : forall (segs : list Sentence) (k : nat) (a : Sentence),
  well_ordered segs -> nth_error segs k = Some a -> (start a < end_ a)%Q.
Proof.
  induction segs as [|x rest IH]; intros k a Hwo Hk.
  - destruct k; discriminate.
  - destruct Hwo as (Hx & _ & Hrest). destruct k as [|k]; cbn in Hk.
    + injection Hk as <-. assumption.
    + eapply IH; eassumption.
Qed.

(** ** Position samples *)

(** A sample always records the located sentence, whatever the repeat logic
    does, and leaves the sentence list and the repeat settings alone. *)
Lemma sample_locates : forall (state : AppState) (t : Q),
  sentences state <> [] ->
  currentSentenceIndex (sample state t) = findSentence (sentences state) 0 t /\
  sentences (sample state t) = sentences state /\
  repeatMode (sample state t) = repeatMode state /\
  repeatCount (sample state t) = repeatCount state.
Proof.
  intros state t Hne.
  assert (Hlen : (length (sentences state) =? 0) = false).
  { unfold length. destruct (sentences state); [congruence | reflexivity]. }
  unfold_handlers. rewrite Hlen. cbn [negb audio_currentTime].
  split_ifs; cbn -[findSentence index length]; repeat split; reflexivity.
Qed.

Lemma interval_locates : forall (state : AppState) (t : Q),
  sentences state <> [] ->
  currentSentenceIndex (step state (playing_at t) ev_interval) =
  findSentence (sentences state) 0 t.
Proof.
  intros state t Hne.
  assert (Hlen : (length (sentences state) =? 0) = false).
  { unfold length. destruct (sentences state); [congruence | reflexivity]. }
  unfold_handlers. rewrite Hlen. reflexivity.
Qed.

(** C6: a sample, whether it comes from [timeupdate] or from the interval,
    resolves the active index to the first sentence, in list order, whose
    interval [start, end] contains the sampled time, and to -1 when there is
    none. On a boundary shared by sentences [i] and [i+1] this is [i], not
    [i+1], as soon as no earlier sentence contains the boundary; that is the
    case in every list that satisfies the ordering invariant of the data
    model. *)
Theorem sample_resolves_first_containing :
  forall (state : AppState) (t : Q),
    sentences state <> [] ->
    let segs := sentences state in
    let found := currentSentenceIndex (sample state t) in
    currentSentenceIndex (step state (playing_at t) ev_interval) = found /\
    ((found = -1 /\
      forall (j : Z) (sj : Sentence), index segs j = Some sj -> contains sj t = false) \/
     (exists s : Sentence,
         index segs found = Some s /\ contains s t = true /\
         forall (j : Z) (sj : Sentence),
           0 <= j < found -> index segs j = Some sj -> contains sj t = false)) /\
    (forall (i : Z) (a b : Sentence),
        index segs i = Some a -> index segs (i + 1) = Some b ->
        (end_ a == t)%Q -> (start b == t)%Q ->
        ((start a <= end_ a)%Q /\
         (forall (j : Z) (sj : Sentence),
             0 <= j < i -> index segs j = Some sj -> contains sj t = false)) \/
        well_ordered segs ->
        found = i /\ found <> i + 1).
Proof.
  intros state t Hne segs found.
  destruct (sample_locates state t Hne) as (Hfound & _).
  subst found segs. rewrite Hfound. split; [apply interval_locates, Hne|]. split.
  - apply findSentence_index.
  - intros i a b Hi Hi1 Hend Hstart Hfirst.
    assert (Hgoal : findSentence (sentences state) 0 t = i); [|split; lia].
    assert (Ha : (start a <= end_ a)%Q /\
                 forall (j : Z) (sj : Sentence),
                   0 <= j < i -> index (sentences state) j = Some sj ->
                   contains sj t = false).
    { destruct Hfirst as [Hfirst | Hwo]; [exact Hfirst|].
      pose proof (index_some_valid _ _ Hi) as [Hi0 _].
      assert (Hnth : nth_error (sentences state) (Z.to_nat i) = Some a).
      { unfold index in Hi. destruct (i <? 0); [discriminate | assumption]. }
      split.
      - apply Qlt_le_weak. eapply well_ordered_nth; eassumption.
      - intros j sj Hj Hsj.
        assert (Hnj : nth_error (sentences state) (Z.to_nat j) = Some sj).
        { unfold index in Hsj. destruct (j <? 0); [discriminate | assumption]. }
        assert (Hsj_lt : (start sj < end_ sj)%Q)
          by (eapply well_ordered_nth; eassumption).
        assert (Hbefore : (end_ sj <= start a)%Q).
        { apply (well_ordered_before (sentences state) (k := Z.to_nat i)
                   (j := Z.to_nat j)); [assumption | lia | assumption | assumption]. }
        assert (Ha_lt : (start a < end_ a)%Q)
          by (eapply well_ordered_nth; eassumption).
        unfold contains. apply andb_false_iff. right.
        destruct (Qle_bool t (end_ sj)) eqn:E; [|reflexivity].
        apply Qle_bool_iff in E. exfalso.
        apply (Qlt_irrefl t).
        apply Qle_lt_trans with (end_ sj); [assumption|].
        apply Qle_lt_trans with (start a); [assumption|].
        rewrite <- Hend. assumption. }
    destruct Ha as [Hle Hnone].
    apply findSentence_unique with (a := a); [assumption | | assumption].
    unfold contains. apply andb_true_iff. split; apply Qle_bool_iff.
    + rewrite <- Hend. assumption.
    + rewrite <- Hend. apply Qle_refl.
Qed.

Lemma sample_resolves_first_containing_witness :
  currentSentenceIndex (sample Session.started (5 # 1)) = 0 /\
  currentSentenceIndex (sample Session.started (5 # 1)) <> 0 + 1.
Proof.
  assert (Hne : sentences Session.started <> []) by discriminate.
  destruct (sample_resolves_first_containing Session.started (5 # 1) Hne)
    as (_ & _ & Htie).
  apply (Htie 0 {| text := "Hi."; start := 0; end_ := 5 |}
              {| text := "Bye."; start := 5; end_ := 10 |}).
  - reflexivity.
  - reflexivity.
  - reflexivity.
  - reflexivity.
  - right. cbn. repeat split; discriminate.
Defined.

(** ** The repeat cycle of one sentence *)


(** ** Runs of samples *)









(** The theorem above is about samples handled while the sentence is active,
    that is, taken no later than its end. A sample taken past the end is
    located in the next sentence: it starts the cycle and schedules the seek
    back, but the sample that follows the seek finds the active index and
    the sentence of the cycle apart and abandons the cycle. *)
Example sample_past_the_end :
  let s1 := sample Session.started (505 # 100) in
  let s2 := sample s1 (1 # 2) in
  (currentSentenceIndex s1 = 1 /\ isRepeating s1 = true /\
   repeatSentenceIndex s1 = 0 /\ currentRepeat s1 = 1 /\
   sample_commands Session.started (505 # 100) = [seek_start Session.first]) /\
  (currentSentenceIndex s2 = 0 /\ isRepeating s2 = false /\ currentRepeat s2 = 0 /\
   sample_commands s1 (1 # 2) = []).
Proof.
  cbn zeta. repeat split; reflexivity.
Qed.

(** ** Invariants of the repeat fields *)

Lemma step_consistent : forall state audioRef ev,
  cycle_consistent state -> cycle_consistent (step state audioRef ev).
Proof.
  intros state audioRef ev (Hcur & Hrep & Hidle).
  pose proof (findSentence_range (sentences state)) as Hfound.
  unfold cycle_consistent, valid_index in *.
  destruct (isRepeating state) eqn:Hr;
    [destruct (Hrep eq_refl) | destruct (Hidle eq_refl)]; clear Hrep Hidle;
    destruct ev; by_cases Hr;
    match goal with
    | |- context [findSentence _ 0 ?t] => specialize (Hfound t); lia
    end.
Qed.

Lemma step_bounded : forall state audioRef ev,
  cycle_consistent state -> count_bounded state -> count_kept state ev ->
  count_bounded (step state audioRef ev).
Proof.
  intros state audioRef ev (Hcur & Hrep & Hidle) (Hcount & Hcr) Hkept.
  unfold count_bounded in *.
  destruct (isRepeating state) eqn:Hr;
    [destruct (Hrep eq_refl) | destruct (Hidle eq_refl)]; clear Hrep Hidle;
    destruct ev; cbn [count_kept] in Hkept; by_cases Hr.
Qed.

Lemma initial_consistent : cycle_consistent initialState /\ count_bounded initialState.
Proof.
  unfold cycle_consistent, count_bounded, valid_index. cbn. repeat split; intros; try discriminate; lia.
Qed.

Lemma reachable_consistent : forall allowed s,
  reachable_by allowed s -> cycle_consistent s.
Proof.
  intros allowed s H. induction H as [|state audioRef ev _ IH _].
  - apply initial_consistent.
  - apply step_consistent, IH.
Qed.

Lemma reachable_bounded : forall s,
  reachable_by count_kept s -> count_bounded s.
Proof.
  intros s H. induction H as [|state audioRef ev Hreach IH Hkept].
  - apply initial_consistent.
  - apply step_bounded; [eapply reachable_consistent; eassumption | assumption | assumption].
Qed.

(** C2, as the code has it: in every reachable state the active index is -1
    or an index of the sentence list, and while a cycle is running the
    sentence it is pinned to ([repeatSentenceIndex]) is an index of the list
    and [currentRepeat] is at least 1; [currentRepeat] also stays within
    [0, repeatCount] as long as the repeat count is never set below 1 or
    below the repeats already counted. *)
Theorem cycle_invariant :
  (forall s : AppState,
      reachable s ->
      -1 <= currentSentenceIndex s < length (sentences s) /\
      (isRepeating s = true ->
       valid_index (sentences s) (repeatSentenceIndex s) /\
       1 <= currentRepeat s)) /\
  (forall s : AppState,
      reachable_by count_kept s ->
      isRepeating s = true ->
      0 <= currentRepeat s <= repeatCount s).
Proof.
  split.
  - intros s H. apply reachable_consistent in H.
    destruct H as (Hcur & Hrep & _). split; assumption.
  - intros s H _. apply reachable_bounded in H. apply H.
Qed.

Lemma session_reachable : forall allowed,
  (forall state ev, match ev with ev_repeatCount _ => True | _ => allowed state ev end) ->
  reachable_by allowed (sample Session.started (49 # 10)).
Proof.
  intros allowed Hall.
  unfold Session.started, Session.repeating, Session.loaded, sample.
  repeat (apply reachable_step;
          [| match goal with |- allowed ?st ?ev => exact (Hall st ev) end]).
  apply reachable_initial.
Qed.

Lemma cycle_invariant_witness :
  let s := sample Session.started (49 # 10) in
  isRepeating s = true /\
  valid_index (sentences s) (repeatSentenceIndex s) /\
  1 <= currentRepeat s <= repeatCount s.
Proof.
  intros s.
  assert (Hrep : isRepeating s = true) by reflexivity.
  assert (Hall : reachable s) by (apply session_reachable; intros state []; exact I).
  assert (Hkept : reachable_by count_kept s)
    by (apply session_reachable; intros state []; exact I).
  destruct cycle_invariant as [Hany Hbounded].
  destruct (Hany s Hall) as [_ Hcycle].
  destruct (Hcycle Hrep) as [Hvalid Hone].
  destruct (Hbounded s Hkept Hrep) as [_ Hcount].
  exact (conj Hrep (conj Hvalid (conj Hone Hcount))).
Defined.

(** C2 fails as stated. With a pause between the two sentences, a sample
    taken just past the end of sentence 0 starts the cycle and is located in
    no sentence: the cycle runs with no active sentence. And after two
    repeats of a sentence have been counted, lowering the repeat count to 1
    leaves [currentRepeat] above [repeatCount]. *)
Lemma cycle_invariant_fails :
  let s1 := sample Session.started_apart (504 # 100) in
  let s2 :=
    step (sample (sample Session.started (495 # 100)) (495 # 100)) None
      (ev_repeatCount 1) in
  (reachable s1 /\ isRepeating s1 = true /\
   ~ valid_index (sentences s1) (currentSentenceIndex s1)) /\
  (reachable s2 /\ isRepeating s2 = true /\
   ~ 0 <= currentRepeat s2 <= repeatCount s2).
Proof.
  intros s1 s2.
  assert (H1 : reachable s1).
  { unfold s1, Session.started_apart, sample.
    repeat (apply reachable_step; [|exact I]). apply reachable_initial. }
  assert (H2 : reachable s2).
  { unfold s2, Session.started, Session.repeating, Session.loaded, sample.
    repeat (apply reachable_step; [|exact I]). apply reachable_initial. }
  split; (split; [assumption|]).
  - split; [reflexivity|]. unfold valid_index. vm_compute.
    intros [H _]. apply H. reflexivity.
  - split; [reflexivity|]. vm_compute. intros [_ H]. apply H. reflexivity.
Qed.

(** ** [handleEnded] *)

(** C9: when the audio ends in mode [all] the handler seeks to 0 and then
    calls [play()]; in any other mode it neither seeks nor plays. *)
Theorem handleEnded_restarts_only_in_mode_all :
  forall (state : AppState),
    (repeatMode state = mode_all ->
     commands (fst (handleEnded state)) = [ClearInterval; Seek 0; Play]) /\
    (repeatMode state <> mode_all ->
     commands (fst (handleEnded state)) = [ClearInterval]).
Proof.
  intros state. unfold handleEnded.
  destruct (repeatMode state); cbn; split; intros H;
    try reflexivity; try discriminate; congruence.
Qed.

Lemma handleEnded_restarts_only_in_mode_all_witness :
  repeatMode (step Session.started None (ev_repeatMode mode_all)) = mode_all /\
  commands (fst (handleEnded (step Session.started None (ev_repeatMode mode_all)))) =
    [ClearInterval; Seek 0; Play] /\
  repeatMode Session.started <> mode_all /\
  commands (fst (handleEnded Session.started)) = [ClearInterval].
Proof.
  assert (Hall : repeatMode (step Session.started None (ev_repeatMode mode_all)) = mode_all)
    by reflexivity.
  assert (Hother : repeatMode Session.started <> mode_all) by discriminate.
  split; [exact Hall | split; [| split; [exact Hother |]]].
  - apply (handleEnded_restarts_only_in_mode_all
             (step Session.started None (ev_repeatMode mode_all))). exact Hall.
  - apply (handleEnded_restarts_only_in_mode_all Session.started). exact Hother.
Defined.

(** The [ended] listener exists once sentences are loaded and the audio
    element is mounted; the event then runs [handleEnded]. *)
Lemma ended_event_runs_handleEnded :
  forall (state : AppState) (audio : HTMLAudioElement),
    sentences state <> [] ->
    issued state (Some audio) ev_ended = commands (fst (handleEnded state)).
Proof.
  intros state audio Hne. unfold issued, dispatch, listening, length.
  destruct (sentences state); [congruence|]. cbn [List.length negb Z.eqb Z.of_nat].
  unfold handleEnded. destruct (RepeatMode_eqb (repeatMode state) mode_all); reflexivity.
Qed.

End PlayerProofs.

(* ====================================================================== *)
(** * Properties of the aligner                                            *)
(* ====================================================================== *)

Module AudioProcessorProofs.

Import AudioProcessor.
Open Scope nat_scope.

(** ** Strings *)

Lemma startsWith_length : forall (pat s : jsstring),
  startsWith s pat = true -> List.length pat <= List.length s.
Proof.
  induction pat as [|p pat IH]; intros s H; cbn in *.
  - lia.
  - destruct s as [|c s]; [discriminate|].
    apply andb_true_iff in H. destruct H as [_ H]. apply IH in H. cbn. lia.
Qed.

Lemma indexFrom_bounds : forall (s pat : jsstring) (k r : nat),
  indexFrom s pat k = Some r ->
  k <= r /\ r + List.length pat <= k + List.length s.
Proof.
  induction s as [|c s IH]; intros pat k r H; cbn [indexFrom] in H.
  - destruct (startsWith [] pat) eqn:E; [|discriminate].
    injection H as <-. apply startsWith_length in E. lia.
  - destruct (startsWith (c :: s) pat) eqn:E.
    + injection H as <-. apply startsWith_length in E. lia.
    + apply IH in H. cbn [List.length]. lia.
Qed.

Lemma indexOf_bounds : forall (s pat : jsstring) (position r : nat),
  position <= List.length s ->
  indexOf s pat position = Some r ->
  position <= r /\ r + List.length pat <= List.length s.
Proof.
  intros s pat position r Hpos H. unfold indexOf in H.
  apply indexFrom_bounds in H. rewrite length_skipn in H. lia.
Qed.

(** ** The character-to-word table *)

Lemma charToWordFrom_lookup : forall (ws : list WordTimestamp) (n o x : nat),
  nth_error (charToWordFrom n ws) o = Some x ->
  n <= x < n + List.length ws.
Proof.
  induction ws as [|w ws IH]; intros n o x H; cbn [charToWordFrom] in H.
  - destruct o; discriminate.
  - destruct (Nat.lt_ge_cases o (List.length (repeat n (List.length (word w))))) as [Hlt | Hge].
    + rewrite nth_error_app1 in H by assumption.
      apply nth_error_In, repeat_spec in H. cbn [List.length]. lia.
    + rewrite nth_error_app2 in H by assumption.
      apply IH in H. cbn [List.length]. lia.
Qed.

Lemma charToWordFrom_monotone : forall (ws : list WordTimestamp) (n a b x y : nat),
  a <= b ->
  nth_error (charToWordFrom n ws) a = Some x ->
  nth_error (charToWordFrom n ws) b = Some y ->
  x <= y.
Proof.
  induction ws as [|w ws IH]; intros n a b x y Hab Ha Hb; cbn [charToWordFrom] in *.
  - destruct a; discriminate.
  - destruct (Nat.lt_ge_cases a (List.length (repeat n (List.length (word w))))) as [Ha1 | Ha2].
    + rewrite nth_error_app1 in Ha by assumption.
      apply nth_error_In, repeat_spec in Ha. subst x.
      destruct (Nat.lt_ge_cases b (List.length (repeat n (List.length (word w))))) as [Hb1 | Hb2].
      * rewrite nth_error_app1 in Hb by assumption.
        apply nth_error_In, repeat_spec in Hb. lia.
      * rewrite nth_error_app2 in Hb by assumption.
        apply charToWordFrom_lookup in Hb. lia.
    + rewrite nth_error_app2 in Ha by assumption.
      rewrite nth_error_app2 in Hb by lia.
      eapply IH; [|eassumption|eassumption]. lia.
Qed.

(** ** Word timings *)

Lemma nondecreasing_pairwise : forall (ws : list WordTimestamp) (x y : nat) (a b : WordTimestamp),
  nondecreasing ws = true ->
  x <= y -> nth_error ws x = Some a -> nth_error ws y = Some b ->
  (start a <= start b)%Q /\ (end_ a <= end_ b)%Q.
Proof.
  induction ws as [|w ws IH]; intros x y a b Hnd Hxy Hx Hy.
  - destruct x; discriminate.
  - cbn [nondecreasing] in Hnd. apply andb_true_iff in Hnd. destruct Hnd as [Hhead Hrest].
    destruct x as [|x]; cbn in Hx.
    + injection Hx as <-.
      destruct y as [|y]; cbn in Hy.
      * injection Hy as <-. split; apply Qle_refl.
      * destruct ws as [|w' ws']; [destruct y; discriminate|].
        apply andb_true_iff in Hhead. destruct Hhead as [Hs He].
        apply Qle_bool_iff in Hs, He.
        destruct (IH 0 y w' b Hrest) as [Hs' He']; [lia | reflexivity | assumption |].
        split; eapply Qle_trans; eassumption.
    + destruct y as [|y]; [lia|]. cbn in Hy.
      apply (IH x y a b); [assumption | lia | assumption | assumption].
Qed.

Lemma orZero_some : forall v : Q, (orZero (Some v) == v)%Q.
Proof.
  intros v. unfold orZero. destruct (Qeq_bool v 0) eqn:E.
  - apply Qeq_bool_iff in E. symmetry. assumption.
  - reflexivity.
Qed.

Lemma ordered_by_start_snoc : forall (segs : list AudioSegment) (x : AudioSegment),
  ordered_by_start segs ->
  Forall (fun seg => (startTime seg <= startTime x)%Q) segs ->
  ordered_by_start (segs ++ [x]).
Proof.
  intros segs x Hord Hall i j a b Hij Ha Hb.
  destruct (Nat.lt_ge_cases j (List.length segs)) as [Hj | Hj].
  - rewrite nth_error_app1 in Ha by lia. rewrite nth_error_app1 in Hb by lia.
    apply (Hord i j a b); assumption.
  - rewrite nth_error_app2 in Hb by lia.
    destruct (j - List.length segs) as [|n] eqn:E; cbn in Hb;
      [injection Hb as <- | destruct n; discriminate].
    destruct (Nat.lt_ge_cases i (List.length segs)) as [Hi | Hi].
    + rewrite nth_error_app1 in Ha by lia.
      rewrite Forall_forall in Hall. apply Hall. eapply nth_error_In; eassumption.
    + rewrite nth_error_app2 in Ha by lia.
      destruct (i - List.length segs) as [|m] eqn:E'; cbn in Ha;
        [injection Ha as <- | destruct m; discriminate].
      apply Qle_refl.
Qed.

Section LoopFacts.

Variable ws : list WordTimestamp.
Variable fullText : jsstring.

Hypothesis Htimed : well_timed ws = true.

Let charToWord := buildCharToWordMapping ws.

Lemma word_lookup : forall (o : nat),
  o < List.length charToWord ->
  exists (x : nat) (w : WordTimestamp),
    nth_error charToWord o = Some x /\ nth_error ws x = Some w.
Proof.
  intros o Ho.
  destruct (nth_error charToWord o) as [x|] eqn:Hx;
    [|apply nth_error_None in Hx; lia].
  pose proof (charToWordFrom_lookup _ _ _ Hx) as Hrange.
  destruct (nth_error ws x) as [w|] eqn:Hw;
    [|apply nth_error_None in Hw; lia].
  exists x, w. split; [reflexivity | assumption].
Qed.

Lemma word_times : forall (w : WordTimestamp),
  In w ws -> (start w <= end_ w)%Q.
Proof.
  intros w Hin. unfold well_timed in Htimed.
  apply andb_true_iff in Htimed. destruct Htimed as [Hall _].
  rewrite forallb_forall in Hall. specialize (Hall w Hin).
  unfold word_ok in Hall. apply andb_true_iff in Hall. destruct Hall as [_ H].
  apply Qle_bool_iff. assumption.
Qed.

Lemma words_sorted : forall (o1 o2 x1 x2 : nat) (w1 w2 : WordTimestamp),
  o1 <= o2 ->
  nth_error charToWord o1 = Some x1 -> nth_error ws x1 = Some w1 ->
  nth_error charToWord o2 = Some x2 -> nth_error ws x2 = Some w2 ->
  (start w1 <= start w2)%Q.
Proof.
  intros o1 o2 x1 x2 w1 w2 Ho Hx1 Hw1 Hx2 Hw2.
  unfold well_timed in Htimed. apply andb_true_iff in Htimed.
  destruct Htimed as [_ Hnd].
  assert (Hx : x1 <= x2) by (eapply charToWordFrom_monotone; eassumption).
  destruct (nondecreasing_pairwise ws Hnd Hx Hw1 Hw2) as [H _]. exact H.
Qed.

Lemma iteration_invariant : forall (st : LoopState) (entry : nat * jsstring),
  loop_invariant ws fullText charToWord st ->
  loop_invariant ws fullText charToWord (iteration ws fullText charToWord st entry).
Proof.
  intros st [i s] Hinv. unfold iteration.
  destruct (is_empty (trim s)) eqn:Hempty; [assumption|].
  destruct (indexOf fullText (trim s) (prevEnd st)) as [start_|] eqn:Hfound; [|assumption].
  destruct ((List.length charToWord <=? start_)
            || (List.length charToWord <=? start_ + List.length (trim s) - 1)) eqn:Hbounds;
    [assumption|].
  apply orb_false_iff in Hbounds. destruct Hbounds as [Hb1 Hb2].
  apply Nat.leb_gt in Hb1, Hb2.
  destruct Hinv as (Hprev & Hord & Hle & Hlt & Hbefore).
  destruct (indexOf_bounds _ _ Hprev Hfound) as [Hge Hend].
  assert (Hlen : 1 <= List.length (trim s)).
  { destruct (trim s); [discriminate | cbn; lia]. }
  destruct (word_lookup Hb1) as (x1 & w1 & Hx1 & Hw1).
  destruct (word_lookup Hb2) as (x2 & w2 & Hx2 & Hw2).
  assert (Hstart : (start w1 <= start w2)%Q).
  { apply (@words_sorted start_ (start_ + List.length (trim s) - 1) x1 x2);
      [lia | assumption..]. }
  unfold loop_invariant. cbn [audioSegments prevEnd].
  rewrite Hx1, Hx2. cbn [wordField option_map]. rewrite Hw1, Hw2. cbn [option_map].
  split; [lia|]. split; [|split; [|split]].
  - apply ordered_by_start_snoc; [assumption|].
    rewrite Forall_forall in *. intros seg Hin. cbn [startTime].
    rewrite orZero_some. apply (Hbefore seg Hin start_ x1 w1); assumption.
  - apply Forall_app. split; [assumption|]. constructor; [|constructor].
    cbn [startTime endTime]. rewrite !orZero_some.
    apply Qle_trans with (start w2); [assumption|].
    apply word_times. eapply nth_error_In; eassumption.
  - intros Hlasting. apply Forall_app. split; [auto|]. constructor; [|constructor].
    cbn [startTime endTime]. rewrite !orZero_some.
    apply Qle_lt_trans with (start w2); [assumption|].
    rewrite forallb_forall in Hlasting.
    assert (Hw : lasting w2 = true) by (apply Hlasting; eapply nth_error_In; eassumption).
    unfold lasting in Hw. apply negb_true_iff in Hw.
    apply Qnot_le_lt. intros Hc. apply Qle_bool_iff in Hc. congruence.
  - apply Forall_app. split.
    + rewrite Forall_forall in *. intros seg Hin o x w Ho Hx Hw.
      apply (Hbefore seg Hin o x w); [lia | assumption | assumption].
    + constructor; [|constructor]. intros o x w Ho Hx Hw. cbn [startTime].
      rewrite orZero_some.
      apply (@words_sorted start_ o x1 x); [lia | assumption..].
Qed.

Lemma runLoop_invariant : forall (es : list (nat * jsstring)) (st : LoopState),
  loop_invariant ws fullText charToWord st ->
  loop_invariant ws fullText charToWord (runLoop ws fullText charToWord st es).
Proof.
  induction es as [|e es IH]; intros st Hinv; cbn [runLoop fold_left].
  - assumption.
  - apply IH, iteration_invariant, Hinv.
Qed.

End LoopFacts.

(** ** Order of the segments *)

Lemma initial_invariant : forall (ws : list WordTimestamp) (fullText : jsstring) (ctw : list nat),
  loop_invariant ws fullText ctw initialLoopState.
Proof.
  intros. unfold loop_invariant, initialLoopState. cbn [audioSegments prevEnd].
  split; [lia|]. split; [|split; [|split]]; try constructor.
  intros i j a b _ Ha. destruct i; discriminate.
Qed.

(** C3, as the code has it: for well-timed words the segments come out in
    non-decreasing order of [startTime] and none ends before it starts;
    [startTime < endTime] holds for every segment when every word takes
    time. *)
Theorem segments_ordered_by_start :
  forall (result : TranscriptionResult),
    well_timed (gatherWords result) = true ->
    ordered_by_start (processTranscriptionIntoSegments result) /\
    Forall (fun seg => (startTime seg <= endTime seg)%Q)
      (processTranscriptionIntoSegments result) /\
    (forallb lasting (gatherWords result) = true ->
     Forall (fun seg => (startTime seg < endTime seg)%Q)
       (processTranscriptionIntoSegments result)).
Proof.
  intros result Htimed. unfold processTranscriptionIntoSegments.
  destruct (List.length (gatherWords result) =? 0).
  - split; [|split]; try constructor. intros i j a b _ Ha. destruct i; discriminate.
  - destruct (@runLoop_invariant (gatherWords result)
                (buildFullText (gatherWords result)) Htimed
                (entries (tokenizeSentences (buildFullText (gatherWords result))))
                initialLoopState (initial_invariant _ _ _))
      as (_ & Hord & Hle & Hlt & _).
    split; [assumption | split; assumption].
Qed.

Lemma segments_ordered_by_start_witness :
  well_timed (gatherWords Example.two_spaces) = true /\
  forallb lasting (gatherWords Example.two_spaces) = true /\
  ordered_by_start (processTranscriptionIntoSegments Example.two_spaces) /\
  Forall (fun seg => (startTime seg < endTime seg)%Q)
    (processTranscriptionIntoSegments Example.two_spaces).
Proof.
  assert (Htimed : well_timed (gatherWords Example.two_spaces) = true) by reflexivity.
  assert (Hlasting : forallb lasting (gatherWords Example.two_spaces) = true) by reflexivity.
  destruct (segments_ordered_by_start Example.two_spaces Htimed) as (Hord & _ & Hlt).
  exact (conj Htimed (conj Hlasting (conj Hord (Hlt Hlasting)))).
Defined.

(** C3 fails as stated: a word whose start and end times coincide is well
    timed, and the sentence made of it gets [startTime = endTime]. *)
Lemma zero_length_word_gives_empty_segment :
  well_timed (gatherWords Example.still) = true /\
  processTranscriptionIntoSegments Example.still =
    [ {| id := js "segment_1"; text := js "Hi."; startTime := 1; endTime := 1 |} ] /\
  ~ Forall (fun seg => (startTime seg < endTime seg)%Q)
      (processTranscriptionIntoSegments Example.still).
Proof.
  split; [reflexivity|]. split; [reflexivity|].
  intros H. inversion H as [|seg rest Hlt _]; subst.
  vm_compute in Hlt. discriminate.
Qed.

(** ** Skipped sentences *)

Section Skipping.

Variable ws : list WordTimestamp.
Variable fullText : jsstring.
Variable charToWord : list nat.

Lemma runLoop_app : forall (es fs : list (nat * jsstring)) (st : LoopState),
  runLoop ws fullText charToWord st (es ++ fs) =
  runLoop ws fullText charToWord (runLoop ws fullText charToWord st es) fs.
Proof. intros. unfold runLoop. apply fold_left_app. Qed.

Lemma iteration_unmatched : forall (st : LoopState) (k : nat) (s : jsstring),
  indexOf fullText (trim s) (prevEnd st) = None ->
  iteration ws fullText charToWord st (k, s) = st.
Proof.
  intros st k s H. unfold iteration. rewrite H.
  destruct (is_empty (trim s)); reflexivity.
Qed.

Lemma iteration_matched : forall (st : LoopState) (j : nat) (sj : jsstring) (start_ : nat),
  is_empty (trim sj) = false ->
  indexOf fullText (trim sj) (prevEnd st) = Some start_ ->
  start_ + List.length (trim sj) - 1 < List.length charToWord ->
  iteration ws fullText charToWord st (j, sj) =
    {| audioSegments :=
         audioSegments st ++ [segmentFor ws charToWord j (trim sj) start_];
       prevEnd := start_ + List.length (trim sj) |}.
Proof.
  intros st j sj start_ Hne Hfound Hmapped. unfold iteration. rewrite Hne, Hfound.
  assert (Hlen : 1 <= List.length (trim sj)).
  { destruct (trim sj); [discriminate | cbn; lia]. }
  destruct (List.length charToWord <=? start_) eqn:E1;
    [apply Nat.leb_le in E1; lia|].
  destruct (List.length charToWord <=? start_ + List.length (trim sj) - 1) eqn:E2;
    [apply Nat.leb_le in E2; lia|].
  reflexivity.
Qed.

Lemma iteration_keeps : forall (st : LoopState) (e : nat * jsstring),
  exists more,
    audioSegments (iteration ws fullText charToWord st e) = audioSegments st ++ more.
Proof.
  intros st [i s]. unfold iteration.
  destruct (is_empty (trim s)); [exists []; symmetry; apply app_nil_r|].
  destruct (indexOf fullText (trim s) (prevEnd st)); [|exists []; symmetry; apply app_nil_r].
  destruct ((List.length charToWord <=? n)
            || (List.length charToWord <=? n + List.length (trim s) - 1));
    [exists []; symmetry; apply app_nil_r|].
  eexists. reflexivity.
Qed.

Lemma runLoop_keeps : forall (es : list (nat * jsstring)) (st : LoopState),
  exists more,
    audioSegments (runLoop ws fullText charToWord st es) = audioSegments st ++ more.
Proof.
  induction es as [|e es IH]; intros st; cbn [runLoop fold_left].
  - exists []. symmetry. apply app_nil_r.
  - destruct (IH (iteration ws fullText charToWord st e)) as [more2 H2].
    destruct (iteration_keeps st e) as [more1 H1].
    exists (more1 ++ more2). unfold runLoop in H2. rewrite H2, H1, app_assoc. reflexivity.
Qed.

Lemma runLoop_emits :
  forall (pre' post' : list (nat * jsstring)) (j : nat) (sj : jsstring)
         (start_ : nat) (st : LoopState),
    is_empty (trim sj) = false ->
    indexOf fullText (trim sj)
      (prevEnd (runLoop ws fullText charToWord st pre')) = Some start_ ->
    start_ + List.length (trim sj) - 1 < List.length charToWord ->
    In (segmentFor ws charToWord j (trim sj) start_)
       (audioSegments (runLoop ws fullText charToWord st (pre' ++ (j, sj) :: post'))).
Proof.
  intros pre' post' j sj start_ st Hne Hfound Hmapped.
  rewrite runLoop_app.
  change (runLoop ws fullText charToWord (runLoop ws fullText charToWord st pre')
            ((j, sj) :: post'))
    with (runLoop ws fullText charToWord
            (iteration ws fullText charToWord
               (runLoop ws fullText charToWord st pre') (j, sj)) post').
  destruct (runLoop_keeps post'
              (iteration ws fullText charToWord
                 (runLoop ws fullText charToWord st pre') (j, sj))) as [more Hmore].
  rewrite Hmore, (@iteration_matched _ j sj start_ Hne Hfound Hmapped).
  cbn [audioSegments].
  apply in_or_app. left. apply in_or_app. right. left. reflexivity.
Qed.

End Skipping.

Lemma no_words_no_sentences : entries (tokenizeSentences (buildFullText [])) = [].
Proof. reflexivity. Qed.

(** C7: when a tokenized sentence does not occur in the full text at or
    after the cursor the loop has reached, the result is the one the loop
    gives with that entry taken out: nothing is pushed for it, the cursor
    stays, and the sentences after it are processed as before. Every
    sentence that is found and whose offsets lie within the table has its
    segment in the result. The aligner is a total function: no statement of
    the loop can raise. *)
Theorem unmatched_sentence_is_skipped :
  forall (result : TranscriptionResult) (pre post : list (nat * jsstring))
         (k : nat) (s : jsstring),
    let ws := gatherWords result in
    let fullText := buildFullText ws in
    let charToWord := buildCharToWordMapping ws in
    let run := runLoop ws fullText charToWord initialLoopState in
    entries (tokenizeSentences fullText) = pre ++ (k, s) :: post ->
    indexOf fullText (trim s) (prevEnd (run pre)) = None ->
    processTranscriptionIntoSegments result = audioSegments (run (pre ++ post)) /\
    (forall (pre' post' : list (nat * jsstring)) (j : nat) (sj : jsstring) (start_ : nat),
        entries (tokenizeSentences fullText) = pre' ++ (j, sj) :: post' ->
        is_empty (trim sj) = false ->
        indexOf fullText (trim sj) (prevEnd (run pre')) = Some start_ ->
        start_ + List.length (trim sj) - 1 < List.length charToWord ->
        In (segmentFor ws charToWord j (trim sj) start_)
           (processTranscriptionIntoSegments result)).
Proof.
  intros result pre post k s ws fullText charToWord run Hentries Hmissing.
  assert (Hrun : processTranscriptionIntoSegments result =
                 audioSegments (run (entries (tokenizeSentences fullText)))).
  { unfold processTranscriptionIntoSegments. fold ws.
    destruct (List.length ws =? 0) eqn:Hlen; [|reflexivity].
    apply Nat.eqb_eq in Hlen. destruct ws eqn:Hws; [|discriminate].
    subst fullText. rewrite no_words_no_sentences in Hentries.
    destruct pre; discriminate. }
  split.
  - rewrite Hrun, Hentries. subst run.
    rewrite !runLoop_app. cbn [runLoop fold_left].
    rewrite (@iteration_unmatched ws fullText charToWord _ k s Hmissing). reflexivity.
  - intros pre' post' j sj start_ Hentries' Hne Hfound Hmapped.
    rewrite Hrun, Hentries'. subst run.
    apply runLoop_emits; assumption.
Qed.

Lemma unmatched_sentence_is_skipped_witness :
  entries (tokenizeSentences (buildFullText (gatherWords Example.two_spaces))) =
    [(0, js "One.")] ++ (1, js "A b.") :: [(2, js "Two.")] /\
  processTranscriptionIntoSegments Example.two_spaces =
    [ {| id := js "segment_1"; text := js "One."; startTime := 0; endTime := 1 |};
      {| id := js "segment_3"; text := js "Two."; startTime := 3; endTime := 4 |} ].
Proof.
  assert (Hentries :
    entries (tokenizeSentences (buildFullText (gatherWords Example.two_spaces))) =
      [(0, js "One.")] ++ (1, js "A b.") :: [(2, js "Two.")]) by reflexivity.
  destruct (@unmatched_sentence_is_skipped Example.two_spaces
              [(0, js "One.")] [(2, js "Two.")] 1 (js "A b.") Hentries)
    as [Hskip _]; [reflexivity|].
  split; [exact Hentries|]. rewrite Hskip. reflexivity.
Defined.

End AudioProcessorProofs.

(* ====================================================================== *)
(** * Properties of the controls and of any repeat count                 *)
(* ====================================================================== *)

Module PlayerControlsProofs.

Import Player PlayerProofs PlayerControls.
Open Scope Z_scope.

Lemma index_none : forall A (arr : list A) (idx : Z),
  index arr idx = None -> idx < 0 \/ length arr <= idx.
Proof.
  intros A arr idx H. unfold index, length in *.
  destruct (idx <? 0) eqn:E; [apply Z.ltb_lt in E; lia|].
  apply Z.ltb_ge in E. apply nth_error_None in H. lia.
Qed.

Ltac none_facts :=
  repeat match goal with
    | H : index _ _ = None |- _ => apply index_none in H
    end.

Lemma nonempty_length : forall (state : AppState),
  sentences state <> [] -> (length (sentences state) =? 0) = false.
Proof.
  intros state H. unfold length. destruct (sentences state); [congruence | reflexivity].
Qed.

(** ** Samples outside sentence mode *)

(** X1: outside sentence repeat a [timeupdate] sample does what an interval tick
    does: it only tracks the current sentence, sends no command to the audio
    element and leaves the three repeat fields alone. *)
Theorem sample_outside_sentence_mode :
  forall (state : AppState) (audioRef : option HTMLAudioElement),
    repeatMode state <> mode_sentence ->
    step state audioRef ev_timeupdate = step state audioRef ev_interval /\
    issued state audioRef ev_timeupdate = [] /\
    isRepeating (step state audioRef ev_timeupdate) = isRepeating state /\
    currentRepeat (step state audioRef ev_timeupdate) = currentRepeat state /\
    repeatSentenceIndex (step state audioRef ev_timeupdate) = repeatSentenceIndex state.
Proof.
  intros state audioRef Hmode. unfold_handlers.
  destruct audioRef as [audio|]; [|repeat split; reflexivity].
  destruct (negb (length (sentences state) =? 0)); [|repeat split; reflexivity].
  destruct (repeatMode state); try congruence; cbn; repeat split; reflexivity.
Qed.

Lemma sample_outside_sentence_mode_witness :
  repeatMode Session.loaded <> mode_sentence /\
  step Session.loaded (playing_at (49 # 10)) ev_timeupdate =
    step Session.loaded (playing_at (49 # 10)) ev_interval /\
  issued Session.loaded (playing_at (49 # 10)) ev_timeupdate = [].
Proof.
  assert (Hmode : repeatMode Session.loaded <> mode_sentence) by discriminate.
  destruct (@sample_outside_sentence_mode Session.loaded (playing_at (49 # 10)) Hmode)
    as (Hsame & Hnone & _).
  exact (conj Hmode (conj Hsame Hnone)).
Defined.

(** ** No sentences loaded *)

Lemma inert_without_sentences :
  forall (state : AppState) (audioRef : option HTMLAudioElement) (ev : Event),
    sentences state = [] ->
    In ev [ev_timeupdate; ev_interval; ev_play; ev_pause; ev_ended] \/
    (exists idx, ev = ev_jumpToSentence idx) ->
    step state audioRef ev = state /\ issued state audioRef ev = [].
Proof.
  intros state audioRef ev Hempty Hev.
  unfold step, issued, dispatch, listening, jumpToSentence, index, length.
  rewrite Hempty.
  destruct Hev as [Hin | [idx ->]].
  - cbn in Hin.
    destruct Hin as [<- | [<- | [<- | [<- | [<- | []]]]]];
      destruct audioRef; split; reflexivity.
  - destruct audioRef; destruct (idx <? 0); try (split; reflexivity);
      destruct (Z.to_nat idx); split; reflexivity.
Qed.

(** ** What a sample can send *)

(** X2: one [timeupdate] sample sends the audio element at most one command,
    which is either a seek scheduled through [setTimeout] or a pause: a
    sample never seeks at once and never starts playback; an interval tick
    sends nothing. *)
Theorem sample_sends_at_most_one_deferred_command :
  forall (state : AppState) (audioRef : option HTMLAudioElement),
    (List.length (issued state audioRef ev_timeupdate) <= 1)%nat /\
    Forall scheduled_or_pause (issued state audioRef ev_timeupdate) /\
    issued state audioRef ev_interval = [].
Proof.
  intros state audioRef. unfold_handlers.
  destruct audioRef as [audio|]; [|cbn; repeat split; [lia | constructor]].
  split_ifs; cbn -[findSentence index length]; none_facts; bool_facts; index_facts;
    repeat split; try lia; repeat constructor.
Qed.

(** ** No access to a missing sentence *)

Lemma dispatch_reads_present_sentences :
  forall (state : AppState) (audioRef : option HTMLAudioElement) (ev : Event),
    cycle_consistent state ->
    (snd (dispatch state audioRef ev) = Thrown ->
     exists cs filename url message,
       ev = ev_uploadProcessed cs filename url message /\ cs = []) /\
    (forall ms, ~ In (SetTimeout CallbackTypeError ms) (fst (dispatch state audioRef ev))).
Proof.
  intros state audioRef ev (Hcur & _ & _).
  destruct ev; unfold_handlers;
    try (destruct audioRef as [audio|]);
    split_ifs; cbn -[findSentence index length]; none_facts; bool_facts; index_facts;
    (split; [intros Hthrown; try discriminate; try lia
            | intros ms Hin; cbn in Hin;
              repeat (destruct Hin as [Hin | Hin]; [try discriminate|]);
              try contradiction; try lia]).
  all: try (injection Hin as Hin _; discriminate).
  all: try (exists convertedSentences, filename, url, message; split; [reflexivity|];
            unfold length in *; destruct convertedSentences; [reflexivity | cbn in *; lia]).
Qed.

(** ** A cycle pinned to another sentence *)

(** X3: in sentence repeat, a sample handled while the render shows a sentence
    other than the one the running cycle is pinned to ends that cycle: the
    three repeat fields go back to idle and no command is sent. *)
Theorem cycle_of_another_sentence_is_abandoned :
  forall (state : AppState) (audio : HTMLAudioElement),
    repeatMode state = mode_sentence ->
    isRepeating state = true ->
    valid_index (sentences state) (currentSentenceIndex state) ->
    repeatSentenceIndex state <> currentSentenceIndex state ->
    let state' := step state (Some audio) ev_timeupdate in
    isRepeating state' = false /\
    currentRepeat state' = 0 /\
    repeatSentenceIndex state' = -1 /\
    issued state (Some audio) ev_timeupdate = [].
Proof.
  intros state audio Hmode Hrep Hvalid Hrsi.
  destruct (index_valid Hvalid) as [s Hs]. unfold valid_index in Hvalid.
  unfold_handlers. rewrite Hmode, Hrep, Hs.
  cbn [negb RepeatMode_eqb orb andb].
  split_ifs; cbn -[findSentence index length]; bool_facts; repeat split; lia.
Qed.

Lemma cycle_of_another_sentence_is_abandoned_witness :
  isRepeating (sample Session.started (505 # 100)) = true /\
  repeatSentenceIndex (sample Session.started (505 # 100)) <>
    currentSentenceIndex (sample Session.started (505 # 100)) /\
  isRepeating
    (step (sample Session.started (505 # 100))
       (Some {| audio_currentTime := 1 # 2; paused := false |}) ev_timeupdate) = false.
Proof.
  assert (Hrep : isRepeating (sample Session.started (505 # 100)) = true) by reflexivity.
  assert (Hrsi : repeatSentenceIndex (sample Session.started (505 # 100)) <>
                 currentSentenceIndex (sample Session.started (505 # 100)))
    by discriminate.
  split; [exact Hrep | split; [exact Hrsi|]].
  apply (@cycle_of_another_sentence_is_abandoned (sample Session.started (505 # 100))
           {| audio_currentTime := 1 # 2; paused := false |});
    [reflexivity | exact Hrep | | exact Hrsi].
  unfold valid_index. vm_compute. split; [discriminate | reflexivity].
Defined.

End PlayerControlsProofs.

Module RepeatCountProofs.

Import Player PlayerProofs PlayerControls PlayerControlsProofs.
Open Scope Z_scope.

(** ** Any repeat count *)










End RepeatCountProofs.

Module NavigationProofs.

Import Player PlayerProofs PlayerControls PlayerControlsProofs.
Open Scope Z_scope.

Ltac unfold_controls :=
  unfold after, sent, goToNextSentence, goToPrevSentence, togglePlayPause, call,
    jumpToSentence.

(** ** Next and previous sentence *)

(** X7: [goToNextSentence] does nothing at the last sentence (or without
    sentences); otherwise it seeks to the start of the following sentence,
    makes it the current one and cancels a running repeat cycle. *)
Theorem goToNextSentence_moves_or_stays :
  forall (state : AppState) (audio : HTMLAudioElement),
    -1 <= currentSentenceIndex state ->
    let handler := goToNextSentence state (Some audio) in
    (length (sentences state) - 1 <= currentSentenceIndex state ->
     after state handler = state /\ sent handler = []) /\
    (currentSentenceIndex state < length (sentences state) - 1 ->
     exists next : Sentence,
       index (sentences state) (currentSentenceIndex state + 1) = Some next /\
       currentSentenceIndex (after state handler) = currentSentenceIndex state + 1 /\
       isRepeating (after state handler) = false /\
       currentRepeat (after state handler) = 0 /\
       repeatSentenceIndex (after state handler) = -1 /\
       sentences (after state handler) = sentences state /\
       sent handler = [Seek (start next)]).
Proof.
  intros state audio Hcur handler. subst handler. unfold_controls. split; intros H.
  - destruct (currentSentenceIndex state <? length (sentences state) - 1) eqn:E;
      [apply Z.ltb_lt in E; lia|]. split; reflexivity.
  - destruct (currentSentenceIndex state <? length (sentences state) - 1) eqn:E;
      [|apply Z.ltb_ge in E; lia].
    destruct (@index_valid _ (sentences state) (currentSentenceIndex state + 1))
      as [next Hnext]; [unfold valid_index; lia|].
    exists next. rewrite Hnext. cbn. repeat split; reflexivity.
Qed.

Lemma goToNextSentence_moves_or_stays_witness :
  -1 <= currentSentenceIndex Session.mid_cycle /\
  currentSentenceIndex Session.mid_cycle < length (sentences Session.mid_cycle) - 1 /\
  currentSentenceIndex
    (after Session.mid_cycle
       (goToNextSentence Session.mid_cycle (playing_at (49 # 10)))) = 1.
Proof.
  assert (H1 : -1 <= currentSentenceIndex Session.mid_cycle) by (vm_compute; discriminate).
  assert (H2 : currentSentenceIndex Session.mid_cycle
               < length (sentences Session.mid_cycle) - 1) by reflexivity.
  destruct (@goToNextSentence_moves_or_stays Session.mid_cycle
              {| audio_currentTime := 49 # 10; paused := false |} H1) as [_ Hmove].
  destruct (Hmove H2) as (next & _ & Hcur & _).
  exact (conj H1 (conj H2 Hcur)).
Defined.

(** X8: [goToPrevSentence] does nothing without sentences; otherwise it goes
    to sentence [max (current - 1) 0], so that at the first sentence, or
    between sentences before it, the first sentence starts again. *)
Theorem goToPrevSentence_moves_or_restarts :
  forall (state : AppState) (audio : HTMLAudioElement),
    currentSentenceIndex state < length (sentences state) ->
    let handler := goToPrevSentence state (Some audio) in
    (sentences state = [] -> after state handler = state /\ sent handler = []) /\
    (sentences state <> [] ->
     let target := Z.max (currentSentenceIndex state - 1) 0 in
     exists prev : Sentence,
       index (sentences state) target = Some prev /\
       currentSentenceIndex (after state handler) = target /\
       isRepeating (after state handler) = false /\
       currentRepeat (after state handler) = 0 /\
       repeatSentenceIndex (after state handler) = -1 /\
       sentences (after state handler) = sentences state /\
       sent handler = [Seek (start prev)]).
Proof.
  intros state audio Hcur handler. subst handler. unfold_controls. split.
  - intros Hempty. rewrite Hempty in *. unfold length in *. cbn [List.length Z.of_nat] in *.
    destruct (0 <? currentSentenceIndex state) eqn:E; [apply Z.ltb_lt in E; lia|].
    split; reflexivity.
  - intros Hne. cbv zeta.
    set (target := Z.max (currentSentenceIndex state - 1) 0).
    assert (Hlen : 0 < length (sentences state)).
    { unfold length. destruct (sentences state); [congruence | cbn; lia]. }
    destruct (@index_valid _ (sentences state) target) as [prev Hprev];
      [unfold valid_index; subst target; lia|].
    exists prev. split; [exact Hprev|].
    destruct (0 <? currentSentenceIndex state) eqn:E.
    + apply Z.ltb_lt in E.
      replace target with (currentSentenceIndex state - 1) in * by (subst target; lia).
      rewrite Hprev. cbn. repeat split; reflexivity.
    + apply Z.ltb_ge in E.
      replace target with 0 in * by (subst target; lia).
      destruct (0 <? length (sentences state)) eqn:E2; [|apply Z.ltb_ge in E2; lia].
      rewrite Hprev. cbn. repeat split; reflexivity.
Qed.

Lemma goToPrevSentence_moves_or_restarts_witness :
  currentSentenceIndex Session.mid_cycle < length (sentences Session.mid_cycle) /\
  sentences Session.mid_cycle <> [] /\
  currentSentenceIndex
    (after Session.mid_cycle
       (goToPrevSentence Session.mid_cycle (playing_at (49 # 10)))) = 0 /\
  sent (goToPrevSentence Session.mid_cycle (playing_at (49 # 10))) = [Seek 0].
Proof.
  assert (H1 : currentSentenceIndex Session.mid_cycle
               < length (sentences Session.mid_cycle)) by reflexivity.
  assert (H2 : sentences Session.mid_cycle <> []) by discriminate.
  destruct (@goToPrevSentence_moves_or_restarts Session.mid_cycle
              {| audio_currentTime := 49 # 10; paused := false |} H1) as [_ Hmove].
  destruct (Hmove H2) as (prev & Hprev & Hcur & _ & _ & _ & _ & Hsent).
  assert (Hstart : start prev = 0%Q)
    by (vm_compute in Hprev; injection Hprev as <-; reflexivity).
  rewrite Hstart in Hsent.
  exact (conj H1 (conj H2 (conj Hcur Hsent))).
Defined.

Lemma goToNextSentence_index :
  forall (state : AppState) (audio : HTMLAudioElement),
    -1 <= currentSentenceIndex state < length (sentences state) - 1 ->
    currentSentenceIndex (after state (goToNextSentence state (Some audio))) =
      currentSentenceIndex state + 1 /\
    sentences (after state (goToNextSentence state (Some audio))) = sentences state.
Proof.
  intros state audio Hcur. unfold_controls.
  destruct (currentSentenceIndex state <? length (sentences state) - 1) eqn:E;
    [|apply Z.ltb_ge in E; lia].
  destruct (@index_valid _ (sentences state) (currentSentenceIndex state + 1))
    as [next Hnext]; [unfold valid_index; lia|].
  rewrite Hnext. cbn. split; reflexivity.
Qed.

Lemma goToPrevSentence_index :
  forall (state : AppState) (audio : HTMLAudioElement),
    0 < length (sentences state) ->
    currentSentenceIndex state < length (sentences state) ->
    currentSentenceIndex (after state (goToPrevSentence state (Some audio))) =
      Z.max (currentSentenceIndex state - 1) 0 /\
    sentences (after state (goToPrevSentence state (Some audio))) = sentences state.
Proof.
  intros state audio Hlen Hcur. unfold_controls.
  destruct (0 <? currentSentenceIndex state) eqn:E.
  - apply Z.ltb_lt in E.
    destruct (@index_valid _ (sentences state) (currentSentenceIndex state - 1))
      as [prev Hprev]; [unfold valid_index; lia|].
    rewrite Hprev. cbn. split; [lia | reflexivity].
  - apply Z.ltb_ge in E.
    destruct (0 <? length (sentences state)) eqn:E2; [|apply Z.ltb_ge in E2; lia].
    destruct (@index_valid _ (sentences state) 0) as [prev Hprev];
      [unfold valid_index; lia|].
    rewrite Hprev. cbn. split; [lia | reflexivity].
Qed.

(** X9: next followed by previous comes back to the sentence it started from
    whenever there is a following sentence, and previous followed by next
    whenever there is a preceding one. *)
Theorem next_then_previous_returns :
  forall (state : AppState) (audio audio' : HTMLAudioElement),
    (0 <= currentSentenceIndex state < length (sentences state) - 1 ->
     let there := after state (goToNextSentence state (Some audio)) in
     currentSentenceIndex (after there (goToPrevSentence there (Some audio'))) =
       currentSentenceIndex state) /\
    (0 < currentSentenceIndex state < length (sentences state) ->
     let there := after state (goToPrevSentence state (Some audio)) in
     currentSentenceIndex (after there (goToNextSentence there (Some audio'))) =
       currentSentenceIndex state).
Proof.
  intros state audio audio'. split; intros Hcur there.
  - destruct (@goToNextSentence_index state audio) as [Hthere Hsent]; [lia|].
    fold there in Hthere, Hsent.
    destruct (@goToPrevSentence_index there audio') as [Hfinal _];
      [rewrite Hsent; lia | rewrite Hthere, Hsent; lia|].
    rewrite Hfinal, Hthere. lia.
  - destruct (@goToPrevSentence_index state audio) as [Hthere Hsent]; [lia | lia|].
    fold there in Hthere, Hsent.
    destruct (@goToNextSentence_index there audio') as [Hfinal _];
      [rewrite Hthere, Hsent; lia|].
    rewrite Hfinal, Hthere. lia.
Qed.

Lemma next_then_previous_returns_witness :
  0 <= currentSentenceIndex Session.mid_cycle
    < length (sentences Session.mid_cycle) - 1 /\
  currentSentenceIndex
    (after (after Session.mid_cycle
              (goToNextSentence Session.mid_cycle (playing_at (49 # 10))))
       (goToPrevSentence
          (after Session.mid_cycle
             (goToNextSentence Session.mid_cycle (playing_at (49 # 10))))
          (playing_at (5 # 1)))) =
    currentSentenceIndex Session.mid_cycle.
Proof.
  assert (H : 0 <= currentSentenceIndex Session.mid_cycle
              < length (sentences Session.mid_cycle) - 1).
  { vm_compute. split; [discriminate | reflexivity]. }
  destruct (@next_then_previous_returns Session.mid_cycle
              {| audio_currentTime := 49 # 10; paused := false |}
              {| audio_currentTime := 5 # 1; paused := false |}) as [Hround _].
  exact (conj H (Hround H)).
Defined.

(** ** Play and pause *)

(** X10: [togglePlayPause] changes no state of its own: it sends [play] when
    the state says paused and [pause] when it says playing, and once the
    resulting audio event has been handled the next toggle sends the
    opposite command. *)
Theorem togglePlayPause_alternates :
  forall (state : AppState) (audio audio' : HTMLAudioElement),
    sentences state <> [] ->
    after state (togglePlayPause state (Some audio)) = state /\
    (isPlaying state = false ->
     sent (togglePlayPause state (Some audio)) = [Play] /\
     sent (togglePlayPause (step state (Some audio) ev_play) (Some audio')) = [Pause]) /\
    (isPlaying state = true ->
     sent (togglePlayPause state (Some audio)) = [Pause] /\
     sent (togglePlayPause (step state (Some audio) ev_pause) (Some audio')) = [Play]).
Proof.
  intros state audio audio' Hne.
  pose proof (@nonempty_length state Hne) as Hlen.
  unfold_controls. unfold_handlers. rewrite Hlen. cbn [negb].
  split; [destruct (isPlaying state); reflexivity|].
  split; intros Hp; rewrite Hp; split; reflexivity.
Qed.

Lemma togglePlayPause_alternates_witness :
  sentences Session.started <> [] /\
  isPlaying Session.started = false /\
  sent (togglePlayPause Session.started (playing_at (1 # 2))) = [Play] /\
  sent (togglePlayPause (step Session.started (playing_at (1 # 2)) ev_play)
          (playing_at (1 # 2))) = [Pause].
Proof.
  assert (Hne : sentences Session.started <> []) by discriminate.
  assert (Hp : isPlaying Session.started = false) by reflexivity.
  destruct (@togglePlayPause_alternates Session.started
              {| audio_currentTime := 1 # 2; paused := false |}
              {| audio_currentTime := 1 # 2; paused := false |} Hne) as (_ & Hplay & _).
  destruct (Hplay Hp) as [H1 H2].
  exact (conj Hne (conj Hp (conj H1 H2))).
Defined.

End NavigationProofs.

Module SessionProofs.

Import Player PlayerProofs PlayerControls PlayerControlsProofs.
Open Scope Z_scope.

(** ** Changing the repeat mode *)

(** X11: changing the repeat mode stores the mode and puts the repeat fields
    back to idle, whatever they were, without touching the sentence shown,
    the repeat count or the audio element; the next sample therefore counts
    from the start. *)
Theorem mode_change_restarts_the_count :
  forall (state : AppState) (audioRef : option HTMLAudioElement) (mode : RepeatMode)
         (t : Q),
    let state' := step state audioRef (ev_repeatMode mode) in
    (repeatMode state' = mode /\
     isRepeating state' = false /\
     currentRepeat state' = 0 /\
     repeatSentenceIndex state' = -1) /\
    (currentSentenceIndex state' = currentSentenceIndex state /\
     repeatCount state' = repeatCount state /\
     sentences state' = sentences state /\
     isPlaying state' = isPlaying state /\
     issued state audioRef (ev_repeatMode mode) = []) /\
    0 <= currentRepeat (sample state' t) <= 1.
Proof.
  intros state audioRef mode t state'. subst state'.
  split; [cbn; repeat split; reflexivity|].
  split; [cbn; repeat split; reflexivity|].
  unfold_handlers. cbn -[findSentence index length].
  split_ifs; cbn -[findSentence index length]; lia.
Qed.

(** ** A new audio *)

(** X12: after New Audio the sentences, the audio URL and the repeat fields are
    cleared while repeat mode, repeat count and speed are kept, and from
    then on audio events and jumps change nothing and send nothing. *)
Theorem new_audio_silences_the_player :
  forall (state : AppState) (audioRef audioRef' : option HTMLAudioElement) (ev : Event),
    In ev [ev_timeupdate; ev_interval; ev_play; ev_pause; ev_ended] \/
    (exists idx, ev = ev_jumpToSentence idx) ->
    let state' := step state audioRef ev_newAudio in
    (sentences state' = [] /\ audioUrl state' = EmptyString /\
     currentSentenceIndex state' = -1 /\ isRepeating state' = false /\
     isPlaying state' = false /\ showForm state' = true) /\
    (repeatMode state' = repeatMode state /\
     repeatCount state' = repeatCount state /\
     playbackSpeed state' = playbackSpeed state) /\
    step state' audioRef' ev = state' /\
    issued state' audioRef' ev = [].
Proof.
  intros state audioRef audioRef' ev Hev state'. subst state'.
  split; [cbn; repeat split; reflexivity|].
  split; [cbn; repeat split; reflexivity|].
  apply inert_without_sentences; [reflexivity | assumption].
Qed.

Lemma new_audio_silences_the_player_witness :
  step (step Session.mid_cycle None ev_newAudio) (playing_at (5 # 1)) ev_timeupdate =
    step Session.mid_cycle None ev_newAudio /\
  repeatMode (step Session.mid_cycle None ev_newAudio) = mode_sentence.
Proof.
  destruct (@new_audio_silences_the_player Session.mid_cycle None (playing_at (5 # 1))
              ev_timeupdate) as (_ & (Hmode & _) & Hsame & _).
  { left. cbn. tauto. }
  split; [exact Hsame | exact Hmode].
Defined.

(** ** A processed upload *)

(** X13: a processed upload without sentences throws and leaves the state as it
    was; one with sentences installs them with the player idle at no
    sentence, keeps the repeat settings, and the first sample then finds
    its sentence by time without starting a cycle. *)
Theorem processed_upload_installs_the_sentences :
  forall (state : AppState) (audioRef : option HTMLAudioElement)
         (cs : list Sentence) (filename url message : string),
    let ev := ev_uploadProcessed cs filename url message in
    (cs = [] ->
     step state audioRef ev = state /\ snd (dispatch state audioRef ev) = Thrown) /\
    (cs <> [] ->
     let state' := step state audioRef ev in
     (sentences state' = cs /\ audioUrl state' = url /\
      currentSentenceIndex state' = -1 /\ currentTime state' = 0%Q /\
      isRepeating state' = false /\ currentRepeat state' = 0 /\
      repeatSentenceIndex state' = -1 /\
      isUploading state' = false /\ selectedFile state' = None) /\
     (repeatMode state' = repeatMode state /\
      repeatCount state' = repeatCount state /\
      playbackSpeed state' = playbackSpeed state /\
      isPlaying state' = isPlaying state) /\
     forall t : Q,
       currentSentenceIndex (sample state' t) = findSentence cs 0 t /\
       isRepeating (sample state' t) = false /\
       sample_commands state' t = []).
Proof.
  intros state audioRef cs filename url message ev. subst ev. split.
  - intros ->. split; reflexivity.
  - intros Hne.
    assert (Hlen : (0 <? length cs) = true).
    { unfold length. destruct cs; [congruence | reflexivity]. }
    assert (Hlen' : (length cs =? 0) = false).
    { unfold length. destruct cs; [congruence | reflexivity]. }
    intros state'. subst state'. unfold step, dispatch, uploadProcessed.
    rewrite Hlen. cbn -[sample sample_commands findSentence].
    split; [repeat split; reflexivity|]. split; [repeat split; reflexivity|].
    intros t. unfold_handlers.
    cbn -[findSentence index length]. rewrite Hlen'.
    cbn -[findSentence index length].
    destruct (negb (RepeatMode_eqb (repeatMode state) mode_sentence));
      cbn -[findSentence index length]; repeat split; reflexivity.
Qed.

Lemma processed_upload_installs_the_sentences_witness :
  Session.touching <> [] /\
  sentences Session.loaded = Session.touching /\
  currentSentenceIndex (sample Session.loaded (5 # 1)) = 0.
Proof.
  assert (Hne : Session.touching <> []) by discriminate.
  destruct (@processed_upload_installs_the_sentences initialState None Session.touching
              "a.mp3" "blob:a" "Processing complete!") as [_ Hinstall].
  destruct (Hinstall Hne) as ((Hsent & _) & _ & Hsample).
  destruct (Hsample (5 # 1)) as (Hcur & _).
  split; [exact Hne | split; [exact Hsent | exact Hcur]].
Defined.

End SessionProofs.

(* ====================================================================== *)
(** * Properties of the file form                                        *)
(* ====================================================================== *)

Module UploadProofs.

Import Player PlayerProofs PlayerControls PlayerControlsProofs Upload.
Open Scope string_scope.
Open Scope Z_scope.

(** ** [validateFile] *)

(** Every listed type is an [audio/] type. *)
Lemma listed_type_is_audio : forall t : string,
  listed audioTypes t = true -> startsWith t "audio/" = true.
Proof.
  intros t H. unfold listed, audioTypes in H. cbn [existsb] in H.
  repeat (apply orb_true_iff in H; destruct H as [H | H];
          [apply String.eqb_eq in H; subst t; reflexivity|]).
  discriminate.
Qed.

(** X14: [validateFile] accepts a file exactly when its size is within the
    limit of the device and its type starts with [audio/] or its name ends
    in one of the seven audio extensions: the list of ten types adds
    nothing. *)
Theorem validateFile_accepts :
  forall (state : AppState) (file : File),
    validateFile state file = None <->
    file_size file <= maxSize state /\
    (startsWith (file_type file) "audio/" = true \/
     hasAudioExtension (file_name file) = true).
Proof.
  intros state file. unfold validateFile.
  destruct (maxSize state <? file_size file) eqn:Hsize.
  - apply Z.ltb_lt in Hsize. split; [discriminate | intros [H _]; lia].
  - apply Z.ltb_ge in Hsize.
    pose proof (@listed_type_is_audio (file_type file)) as Hlisted.
    destruct (listed audioTypes (file_type file));
      destruct (startsWith (file_type file) "audio/");
      destruct (hasAudioExtension (file_name file)); cbn [orb negb];
      try (split; [auto | reflexivity]).
    split; [discriminate | intros [_ [H | H]]; discriminate].
Qed.

Lemma toLowerCase_idempotent : forall s : string,
  toLowerCase (toLowerCase s) = toLowerCase s.
Proof.
  induction s as [|c s IH]; [reflexivity|]. cbn [toLowerCase]. rewrite IH. f_equal.
  destruct c as [b0 b1 b2 b3 b4 b5 b6 b7].
  destruct b0, b1, b2, b3, b4, b5, b6, b7; reflexivity.
Qed.

(** X15: a file accepted on a mobile device is accepted on a desktop one, a
    file above the desktop limit is rejected on both, and the case of the
    letters of the file name does not matter. *)
Theorem validateFile_limits :
  forall (mobile desktop : AppState) (file : File),
    isMobile mobile = true ->
    isMobile desktop = false ->
    (validateFile mobile file = None -> validateFile desktop file = None) /\
    (maxSize desktop < file_size file ->
     validateFile mobile file <> None /\ validateFile desktop file <> None) /\
    (validateFile desktop
       {| file_name := toLowerCase (file_name file);
          file_type := file_type file;
          file_size := file_size file |} = None <->
     validateFile desktop file = None).
Proof.
  intros mobile desktop file Hm Hd. split; [|split].
  - unfold validateFile, maxSize. rewrite Hm, Hd.
    destruct (100 * 1024 * 1024 <? file_size file) eqn:E1; [discriminate|].
    apply Z.ltb_ge in E1.
    destruct (500 * 1024 * 1024 <? file_size file) eqn:E2;
      [apply Z.ltb_lt in E2; lia | trivial].
  - unfold validateFile, maxSize. rewrite Hm, Hd. intros Hbig.
    destruct (100 * 1024 * 1024 <? file_size file) eqn:E1;
      [|apply Z.ltb_ge in E1; lia].
    destruct (500 * 1024 * 1024 <? file_size file) eqn:E2;
      [|apply Z.ltb_ge in E2; lia].
    split; discriminate.
  - unfold validateFile. cbn [file_name file_type file_size].
    unfold hasAudioExtension. rewrite toLowerCase_idempotent. reflexivity.
Qed.

Lemma validateFile_limits_witness :
  isMobile (after initialState (updateState [set_isMobile true])) = true /\
  isMobile initialState = false /\
  validateFile initialState recording = None.
Proof.
  assert (Hm : isMobile (after initialState (updateState [set_isMobile true])) = true)
    by reflexivity.
  assert (Hd : isMobile initialState = false) by reflexivity.
  destruct (@validateFile_limits (after initialState (updateState [set_isMobile true]))
              initialState recording Hm Hd) as (Himp & _).
  split; [exact Hm | split; [exact Hd|]]. apply Himp. reflexivity.
Defined.

(** ** [handleFileChange] *)

(** X16: after [handleFileChange] a file is selected exactly when one was
    picked and [validateFile] accepted it; the sentences, the audio and the
    player fields are untouched and no command is sent. *)
Theorem handleFileChange_selects_valid_files_only :
  forall (state : AppState) (file : option File),
    let state' := after state (handleFileChange state file) in
    (forall f : File,
        selectedFile state' = Some f <-> file = Some f /\ validateFile state f = None) /\
    (sentences state' = sentences state /\
     audioUrl state' = audioUrl state /\
     currentSentenceIndex state' = currentSentenceIndex state /\
     isRepeating state' = isRepeating state /\
     currentRepeat state' = currentRepeat state /\
     isPlaying state' = isPlaying state /\
     isUploading state' = isUploading state) /\
    sent (handleFileChange state file) = [].
Proof.
  intros state file state'. subst state'. unfold handleFileChange.
  destruct file as [f0|].
  - destruct (validateFile state f0) as [err|] eqn:Hv; cbn.
    + split; [|split; [repeat split|]; reflexivity].
      intros f. split; [discriminate | intros [Hf Hok]]. congruence.
    + split; [|split; [repeat split|]; reflexivity].
      intros f. split.
      * intros Hf. injection Hf as <-. split; [reflexivity | assumption].
      * intros [Hf _]. congruence.
  - cbn. split; [|split; [repeat split|]; reflexivity].
    intros f. split; [discriminate | intros [Hf _]; discriminate].
Qed.

(** ** [handleSubmit] *)

(** X17: [handleSubmit] without a selected file, or while an upload is running,
    changes neither the sentences nor the player; otherwise it clears the
    sentences, resets the player and marks the upload as running, after
    which a second submit changes nothing. *)
Theorem handleSubmit_starts_one_upload :
  forall (state : AppState),
    let state' := after state (handleSubmit state) in
    (selectedFile state = None \/ isUploading state = true ->
     sentences state' = sentences state /\
     isUploading state' = isUploading state /\
     currentSentenceIndex state' = currentSentenceIndex state /\
     isRepeating state' = isRepeating state /\
     selectedFile state' = selectedFile state) /\
    (selectedFile state <> None -> isUploading state = false ->
     sentences state' = [] /\
     isUploading state' = true /\
     currentSentenceIndex state' = -1 /\
     isRepeating state' = false /\ currentRepeat state' = 0 /\
     selectedFile state' = selectedFile state /\
     after state' (handleSubmit state') = state').
Proof.
  intros state state'. subst state'. unfold handleSubmit. split.
  - intros [Hnone | Hup].
    + rewrite Hnone. cbn. repeat split; congruence.
    + rewrite Hup. destruct (selectedFile state) eqn:Hf; cbn; repeat split; congruence.
  - intros Hsome Hup. destruct (selectedFile state) as [f|] eqn:Hf; [|congruence].
    rewrite Hup. cbn. rewrite ?Hf. repeat split; try reflexivity; congruence.
Qed.

Lemma handleSubmit_starts_one_upload_witness :
  selectedFile choosing <> None /\
  isUploading choosing = false /\
  sentences (after choosing (handleSubmit choosing)) = [] /\
  isUploading (after choosing (handleSubmit choosing)) = true.
Proof.
  assert (Hf : selectedFile choosing <> None) by discriminate.
  assert (Hup : isUploading choosing = false) by reflexivity.
  destruct (@handleSubmit_starts_one_upload choosing) as [_ Hstart].
  destruct (Hstart Hf Hup) as (Hsent & Hupl & _).
  exact (conj Hf (conj Hup (conj Hsent Hupl))).
Defined.

(** X18: when a started upload fails, the sentences that were loaded before are
    gone, the upload is no longer running, no file is selected and the form
    is hidden, while the audio URL of the previous audio is still there. *)
Theorem failed_upload_leaves_no_sentences :
  forall (state : AppState) (errorMessage : string),
    selectedFile state <> None -> isUploading state = false ->
    let failed :=
      after (after state (handleSubmit state)) (handleSubmitFailed state errorMessage) in
    sentences failed = [] /\
    currentSentenceIndex failed = -1 /\
    isUploading failed = false /\
    selectedFile failed = None /\
    showForm failed = false /\
    audioUrl failed = audioUrl state.
Proof.
  intros state errorMessage Hsome Hup failed. subst failed.
  unfold handleSubmit. destruct (selectedFile state) as [f|]; [|congruence].
  rewrite Hup. cbn. repeat split; reflexivity.
Qed.

Lemma failed_upload_leaves_no_sentences_witness :
  selectedFile choosing <> None /\
  isUploading choosing = false /\
  sentences
    (after (after choosing (handleSubmit choosing))
       (handleSubmitFailed choosing "Failed to fetch")) = [].
Proof.
  assert (Hf : selectedFile choosing <> None) by discriminate.
  assert (Hup : isUploading choosing = false) by reflexivity.
  destruct (@failed_upload_leaves_no_sentences choosing "Failed to fetch" Hf Hup)
    as (Hsent & _).
  exact (conj Hf (conj Hup Hsent)).
Defined.

End UploadProofs.

Module InvariantProofs.

Import Player PlayerProofs PlayerControls PlayerControlsProofs Upload.
Open Scope Z_scope.

Lemma perform_consistent : forall state audioRef c,
  cycle_consistent state -> cycle_consistent (after state (perform state audioRef c)).
Proof.
  intros state audioRef c Hc.
  pose proof Hc as (Hcur & Hrep & Hidle).
  unfold cycle_consistent, valid_index in *.
  destruct c; unfold after, perform, goToPrevSentence, goToNextSentence,
    togglePlayPause, handleFileChange, handleSubmit, handleSubmitFailed, jumpToSentence.
  - destruct audioRef; split_ifs; cbn -[index length]; index_facts;
      repeat split; try intros; try discriminate; try lia; try tauto.
  - destruct audioRef; split_ifs; cbn -[index length]; index_facts;
      repeat split; try intros; try discriminate; try lia; try tauto.
  - destruct audioRef; split_ifs; cbn -[index length]; tauto.
  - destruct file as [f|]; [destruct (validateFile state f)|];
      cbn -[index length]; tauto.
  - destruct (selectedFile state); split_ifs; cbn -[index length];
      repeat split; try intros; try discriminate; try lia; try tauto.
  - cbn -[index length]. tauto.
Qed.

Lemma reachable_with_commands_consistent : forall s,
  reachable_with_commands s -> cycle_consistent s.
Proof.
  intros s H. induction H as [|state audioRef ev _ IH|state audioRef c _ IH].
  - apply initial_consistent.
  - apply step_consistent, IH.
  - apply perform_consistent, IH.
Qed.

(** X19: in every state reachable through the audio events, the settings and
    the commands of the user, the current sentence is none or a valid one,
    a running cycle is pinned to a valid sentence with a count of at least
    1, and an idle player has count 0 and no pinned sentence. *)
Theorem repeat_fields_stay_consistent :
  forall s : AppState,
    reachable_with_commands s ->
    -1 <= currentSentenceIndex s < length (sentences s) /\
    (isRepeating s = true ->
     valid_index (sentences s) (repeatSentenceIndex s) /\ 1 <= currentRepeat s) /\
    (isRepeating s = false ->
     currentRepeat s = 0 /\ repeatSentenceIndex s = -1).
Proof.
  intros s H. apply reachable_with_commands_consistent in H. exact H.
Qed.

Lemma repeat_fields_stay_consistent_witness :
  reachable_with_commands
    (after Session.mid_cycle (perform Session.mid_cycle (playing_at (49 # 10)) cmd_next)) /\
  isRepeating
    (after Session.mid_cycle (perform Session.mid_cycle (playing_at (49 # 10)) cmd_next))
    = false /\
  currentRepeat
    (after Session.mid_cycle (perform Session.mid_cycle (playing_at (49 # 10)) cmd_next))
    = 0.
Proof.
  assert (Hr : reachable_with_commands
                 (after Session.mid_cycle
                    (perform Session.mid_cycle (playing_at (49 # 10)) cmd_next))).
  { apply reachable_by_command.
    unfold Session.mid_cycle, Session.started, Session.repeating, Session.loaded, sample.
    repeat apply reachable_by_event. apply reachable_at_start. }
  destruct (repeat_fields_stay_consistent Hr) as (_ & _ & Hidle).
  destruct (Hidle eq_refl) as [Hcr _].
  split; [exact Hr | split; [reflexivity | exact Hcr]].
Defined.

(** X20: in a reachable state no event handler reads a field of a sentence
    that does not exist, neither at once nor in a callback it schedules;
    the only exception thrown is the one for a response without sentences. *)
Theorem no_handler_reads_a_missing_sentence :
  forall (s : AppState) (audioRef : option HTMLAudioElement) (ev : Event),
    reachable_with_commands s ->
    (snd (dispatch s audioRef ev) = Thrown ->
     exists cs filename url message,
       ev = ev_uploadProcessed cs filename url message /\ cs = []) /\
    (forall ms, ~ In (SetTimeout CallbackTypeError ms) (fst (dispatch s audioRef ev))).
Proof.
  intros s audioRef ev H. apply dispatch_reads_present_sentences.
  apply reachable_with_commands_consistent, H.
Qed.

Lemma no_handler_reads_a_missing_sentence_witness :
  reachable_with_commands Session.at_last /\
  ~ In (SetTimeout CallbackTypeError 200)
      (fst (dispatch Session.at_last (playing_at (10 # 1)) ev_timeupdate)).
Proof.
  assert (Hr : reachable_with_commands Session.at_last).
  { unfold Session.at_last, Player.Session.repeating, Player.Session.loaded, sample.
    repeat apply reachable_by_event. apply reachable_at_start. }
  exact (conj Hr
    (proj2 (@no_handler_reads_a_missing_sentence Session.at_last (playing_at (10 # 1))
              ev_timeupdate Hr) 200)).
Defined.

End InvariantProofs.

(* ====================================================================== *)
(** * Properties of the tokenizer and of the segments                    *)
(* ====================================================================== *)

Module TokenizerProofs.

Import AudioProcessor Alignment.
Open Scope nat_scope.

(** ** [trim] *)

Lemma trimStart_unchanged : forall (c : N) (s : jsstring),
  is_space c = false -> trimStart (c :: s) = c :: s.
Proof. intros c s H. cbn. rewrite H. reflexivity. Qed.

Lemma trimStart_drops : forall (c : N) (s : jsstring),
  is_space c = true -> trimStart (c :: s) = trimStart s.
Proof. intros c s H. cbn. rewrite H. reflexivity. Qed.

(** A string that begins and ends with something other than white space is
    its own trim. *)
Lemma trim_unchanged : forall (c d : N) (mid : jsstring),
  is_space c = false -> is_space d = false ->
  trim (c :: mid ++ [d]) = c :: mid ++ [d].
Proof.
  intros c d mid Hc Hd. unfold trim. rewrite trimStart_unchanged by assumption.
  change (c :: mid ++ [d]) with ((c :: mid) ++ [d]).
  rewrite rev_app_distr. cbn [rev app]. rewrite trimStart_unchanged by assumption.
  change (d :: rev mid ++ [c]) with (rev [d] ++ rev (c :: mid)).
  rewrite <- rev_app_distr, rev_involutive. reflexivity.
Qed.

Lemma trim_single : forall c : N, is_space c = false -> trim [c] = [c].
Proof. intros c H. unfold trim. cbn. rewrite H. cbn. rewrite H. reflexivity. Qed.

(** ** Clean strings *)

Lemma clean_app : forall (l r : jsstring) (b : bool),
  clean b (l ++ r) = spaced b l && clean (endsInSpace b l) r.
Proof.
  induction l as [|c l IH]; intros r b; cbn [app clean spaced endsInSpace fold_left].
  - reflexivity.
  - destruct (is_space c) eqn:Hc.
    + rewrite IH. unfold endsInSpace.
      destruct ((c =? 32)%N && negb b); reflexivity.
    + rewrite IH. reflexivity.
Qed.

Lemma endsInSpace_snoc : forall (l : jsstring) (c : N) (b : bool),
  endsInSpace b (l ++ [c]) = is_space c.
Proof. intros. unfold endsInSpace. rewrite fold_left_app. reflexivity. Qed.

Lemma spaced_snoc_clean : forall (l : jsstring) (c : N) (b : bool),
  spaced b (l ++ [c]) = true -> is_space c = false -> clean b (l ++ [c]) = true.
Proof.
  induction l as [|x l IH]; intros c b H Hc; cbn [app clean spaced] in *.
  - rewrite Hc in *. reflexivity.
  - destruct (is_space x).
    + apply andb_true_iff in H. destruct H as [H1 H2]. rewrite H1. apply IH; assumption.
    + apply IH; assumption.
Qed.

Lemma clean_spaced : forall (s : jsstring) (b : bool),
  clean b s = true -> spaced b s = true.
Proof.
  induction s as [|c s IH]; intros b H; cbn [clean spaced] in *.
  - reflexivity.
  - destruct (is_space c).
    + apply andb_true_iff in H. destruct H as [H1 H2]. rewrite H1. apply IH; assumption.
    + apply IH; assumption.
Qed.

(** A clean string that follows a space begins with something else. *)
Lemma clean_after_space : forall s : jsstring,
  clean true s = true ->
  exists (c : N) (rest : jsstring),
    s = c :: rest /\ is_space c = false /\ clean false rest = true.
Proof.
  intros [|c rest] H; cbn [clean] in H; [discriminate|].
  destruct (is_space c) eqn:Hc.
  - rewrite andb_false_r in H. discriminate.
  - exists c, rest. auto.
Qed.

Lemma clean_last : forall (s : jsstring) (b : bool),
  clean b s = true -> s <> [] ->
  exists (init : jsstring) (c : N), s = init ++ [c] /\ is_space c = false.
Proof.
  induction s as [|x s IH]; intros b H Hne; [congruence|].
  destruct s as [|y s'].
  - exists [], x. split; [reflexivity|]. cbn [clean] in H.
    destruct (is_space x); [|reflexivity].
    rewrite andb_false_r in H. discriminate.
  - assert (Hrest : exists b', clean b' (y :: s') = true).
    { cbn [clean] in H. destruct (is_space x).
      - apply andb_true_iff in H. destruct H as [_ H]. exists true. exact H.
      - exists false. exact H. }
    destruct Hrest as [b' Hrest].
    destruct (IH b' Hrest) as (init & c & Heq & Hc); [discriminate|].
    exists (x :: init), c. rewrite Heq. split; [reflexivity | assumption].
Qed.

Lemma tidy_trim : forall s : jsstring, tidy s -> trim s = s.
Proof.
  intros s H. unfold tidy in H.
  destruct (@clean_after_space s H) as (c & rest & -> & Hc & Hrest).
  destruct rest as [|y rest']; [apply trim_single; assumption|].
  destruct (@clean_last (y :: rest') false Hrest) as (init & d & Heq & Hd); [discriminate|].
  rewrite Heq. apply trim_unchanged; assumption.
Qed.

Lemma tidy_not_empty : forall s : jsstring, tidy s -> s <> [].
Proof. intros [|c s] H; [discriminate | discriminate]. Qed.

(** ** The normalised text *)

Lemma collapseSpaces_spaced : forall (t : jsstring) (b : bool),
  spaced b (collapseSpaces b t) = true.
Proof.
  induction t as [|c t IH]; intros b; cbn [collapseSpaces].
  - reflexivity.
  - destruct (is_space c) eqn:Hc.
    + destruct b; [apply IH|].
      cbn [spaced]. change (is_space 32) with true. cbn. apply IH.
    + cbn [spaced]. rewrite Hc. apply IH.
Qed.

Lemma trimStart_spaced : forall (s : jsstring) (b : bool),
  spaced b s = true -> spaced true (trimStart s) = true.
Proof.
  induction s as [|c s IH]; intros b H; cbn [trimStart].
  - reflexivity.
  - cbn [spaced] in H. destruct (is_space c) eqn:Hc.
    + apply andb_true_iff in H. destruct H as [_ H]. apply (IH true H).
    + cbn [spaced]. rewrite Hc. exact H.
Qed.

(** A spaced string is clean, or clean but for one final space, or empty. *)
Lemma spaced_cases : forall (s : jsstring) (b : bool),
  spaced b s = true ->
  clean b s = true \/
  (exists s', s = s' ++ [32%N] /\ clean b s' = true) \/
  (s = [] /\ b = true).
Proof.
  induction s as [|c s IH]; intros b H.
  - destruct b; [right; right; auto | left; reflexivity].
  - cbn [spaced] in H. cbn [clean]. destruct (is_space c) eqn:Hc.
    + apply andb_true_iff in H. destruct H as [H1 H2]. rewrite H1.
      apply andb_true_iff in H1. destruct H1 as [H32 Hb].
      destruct (IH true H2) as [Hclean | [(s' & -> & Hs') | (-> & _)]].
      * left. exact Hclean.
      * right. left. exists (c :: s'). split; [reflexivity|].
        cbn [clean]. rewrite Hc, H32, Hb. exact Hs'.
      * right. left. exists []. apply N.eqb_eq in H32. subst c.
        destruct b; [discriminate | split; reflexivity].
    + destruct (IH false H) as [Hclean | [(s' & -> & Hs') | (_ & Hf)]].
      * left. exact Hclean.
      * right. left. exists (c :: s'). split; [reflexivity|].
        cbn [clean]. rewrite Hc. exact Hs'.
      * discriminate.
Qed.

Lemma trim_of_tidy_start : forall y : jsstring,
  spaced true y = true -> rev (trimStart (rev y)) = [] \/ tidy (rev (trimStart (rev y))).
Proof.
  intros y H. destruct (@spaced_cases y true H) as [Hclean | [(y' & -> & Hy') | (-> & _)]].
  - right. pose proof (tidy_trim Hclean) as Ht. unfold trim in Ht.
    destruct (@clean_after_space y Hclean) as (c & rest & -> & Hc & _).
    rewrite trimStart_unchanged in Ht by assumption.
    rewrite Ht. exact Hclean.
  - rewrite rev_app_distr. cbn [rev app].
    rewrite trimStart_drops by reflexivity.
    pose proof (tidy_trim Hy') as Ht. unfold trim in Ht.
    destruct (@clean_after_space y' Hy') as (c & rest & -> & Hc & _).
    rewrite trimStart_unchanged in Ht by assumption.
    right. rewrite Ht. exact Hy'.
  - left. reflexivity.
Qed.

Lemma cleanText_cases : forall t : jsstring,
  trim (collapseSpaces false t) = [] \/ tidy (trim (collapseSpaces false t)).
Proof.
  intros t. unfold trim. apply trim_of_tidy_start.
  apply trimStart_spaced with (b := false). apply collapseSpaces_spaced.
Qed.

End TokenizerProofs.

Module SplitProofs.

Import AudioProcessor Alignment TokenizerProofs.
Open Scope nat_scope.

Lemma sentence_end_not_space : forall c : N,
  is_sentence_end c = true -> is_space c = false.
Proof.
  intros c H. unfold is_sentence_end in H. cbn [existsb] in H.
  repeat (apply orb_true_iff in H; destruct H as [H | H];
          [apply N.eqb_eq in H; subst c; reflexivity|]).
  discriminate.
Qed.

Lemma joinWithSpace_cons : forall (s : jsstring) (rest : list jsstring),
  rest <> [] -> joinWithSpace (s :: rest) = s ++ 32%N :: joinWithSpace rest.
Proof. intros s [|x rest] H; [congruence | reflexivity]. Qed.

Lemma cut_well_cons : forall (piece whole : jsstring) (pieces : list jsstring),
  tidy piece -> endsSentence piece -> cut_well whole pieces ->
  cut_well (piece ++ 32%N :: whole) (piece :: pieces).
Proof.
  intros piece whole pieces Htidy Hend (Hjoin & Hall & firsts & final & -> & Hfirsts).
  split; [|split].
  - rewrite joinWithSpace_cons by (destruct firsts; discriminate).
    rewrite Hjoin. reflexivity.
  - constructor; assumption.
  - exists (piece :: firsts), final. split; [reflexivity | constructor; assumption].
Qed.

Lemma splitSentences_tidy :
  forall (s : jsstring),
    (forall (prev : option N) (piece : jsstring),
        clean true (piece ++ s) = true ->
        (piece = [] \/ exists init p, piece = init ++ [p] /\ prev = Some p) ->
        cut_well (piece ++ s) (splitSentences prev false piece s)) /\
    (forall (prev : option N),
        clean true s = true ->
        cut_well s (splitSentences prev true [] s)).
Proof.
  induction s as [|c rest [IHpiece IHsep]]; split.
  - intros prev piece Hclean _. cbn [splitSentences]. rewrite app_nil_r in *.
    split; [reflexivity|]. split.
    + constructor; [exact Hclean | constructor].
    + exists [], piece. split; [reflexivity | constructor].
  - intros prev H. discriminate.
  - intros prev piece Hclean Hprev. cbn [splitSentences].
    destruct (is_space c) eqn:Hc.
    + (* a space: the piece read so far is not empty *)
      destruct Hprev as [-> | (init & p & -> & ->)].
      { cbn [app clean] in Hclean. rewrite Hc, andb_false_r in Hclean. discriminate. }
      pose proof Hclean as Hwhole.
      rewrite clean_app, endsInSpace_snoc in Hclean.
      apply andb_true_iff in Hclean. destruct Hclean as [Hpiece Hrest].
      cbn [clean] in Hrest. rewrite Hc in Hrest.
      apply andb_true_iff in Hrest. destruct Hrest as [H1 Hrest].
      apply andb_true_iff in H1. destruct H1 as [H32 Hp].
      apply N.eqb_eq in H32. apply negb_true_iff in Hp. subst c.
      destruct (is_sentence_end p) eqn:Hend.
      * apply cut_well_cons.
        -- apply spaced_snoc_clean; assumption.
        -- exists init, p. split; [reflexivity | assumption].
        -- apply IHsep. exact Hrest.
      * replace ((init ++ [p]) ++ 32%N :: rest)
          with (((init ++ [p]) ++ [32%N]) ++ rest) in *
          by (rewrite <- app_assoc; reflexivity).
        apply IHpiece; [exact Hwhole|].
        right. exists (init ++ [p]), 32%N. split; reflexivity.
    + replace (piece ++ c :: rest) with ((piece ++ [c]) ++ rest) in *
        by (rewrite <- app_assoc; reflexivity).
      apply IHpiece; [exact Hclean|].
      right. exists piece, c. split; reflexivity.
  - intros prev Hclean. cbn [splitSentences].
    destruct (@clean_after_space (c :: rest) Hclean) as (d & rest' & Heq & Hd & Hrest').
    injection Heq as <- <-. rewrite Hd.
    change (c :: rest) with ([c] ++ rest).
    apply IHpiece; [exact Hclean|].
    right. exists [], c. split; reflexivity.
Qed.

(** With the text normalised first, trimming and filtering the pieces
    changes nothing. *)
Lemma tidy_pieces_kept : forall pieces : list jsstring,
  Forall tidy pieces ->
  map trim (filter (fun sentence => negb (is_empty (trim sentence))) pieces) = pieces.
Proof.
  induction pieces as [|x pieces IH]; intros H; [reflexivity|].
  inversion H as [|? ? Hx Hrest]; subst. cbn [filter map].
  rewrite (tidy_trim Hx).
  destruct x as [|c x']; [discriminate|]. cbn [is_empty negb map].
  rewrite (tidy_trim Hx), IH by assumption. reflexivity.
Qed.

Lemma tokenizeSentences_cut_well : forall t : jsstring,
  (trim (collapseSpaces false t) = [] /\ tokenizeSentences t = []) \/
  cut_well (trim (collapseSpaces false t)) (tokenizeSentences t).
Proof.
  intros t. unfold tokenizeSentences.
  destruct (cleanText_cases t) as [Hempty | Htidy].
  - left. rewrite Hempty. split; reflexivity.
  - right. destruct (splitSentences_tidy (trim (collapseSpaces false t))) as [Hpiece _].
    specialize (Hpiece None [] Htidy (or_introl eq_refl)). cbn [app] in Hpiece.
    rewrite tidy_pieces_kept by apply Hpiece. exact Hpiece.
Qed.

Lemma tokenizeSentences_pieces : forall (t s : jsstring),
  In s (tokenizeSentences t) -> tidy s.
Proof.
  intros t s Hin. destruct (tokenizeSentences_cut_well t) as [[_ Hnone] | (_ & Hall & _)].
  - rewrite Hnone in Hin. contradiction.
  - rewrite Forall_forall in Hall. exact (Hall s Hin).
Qed.

(** ** What [tokenizeSentences] returns *)

(** X21: joining the sentences of [tokenizeSentences] with single spaces gives
    back the text with its white space collapsed and trimmed: the tokenizer
    drops and reorders nothing. *)
Theorem tokenizeSentences_round_trip : forall t : jsstring,
  joinWithSpace (tokenizeSentences t) = trim (collapseSpaces false t).
Proof.
  intros t. destruct (tokenizeSentences_cut_well t) as [[Hempty ->] | (Hjoin & _)].
  - rewrite Hempty. reflexivity.
  - exact Hjoin.
Qed.

(** X22: every sentence the tokenizer returns is non-empty, has no white space
    at either end, and inside has only single U+0020 spaces. *)
Theorem tokenizeSentences_tidy : forall (t s : jsstring),
  In s (tokenizeSentences t) ->
  s <> [] /\ trim s = s /\ clean true s = true.
Proof.
  intros t s Hin. pose proof (@tokenizeSentences_pieces t s Hin) as Hall.
  split; [apply tidy_not_empty; assumption|]. split; [apply tidy_trim|]; assumption.
Qed.

Lemma tokenizeSentences_tidy_witness :
  In (js "Two.") (tokenizeSentences (js "  One.   Two. ")) /\
  trim (js "Two.") = js "Two.".
Proof.
  assert (Hin : In (js "Two.") (tokenizeSentences (js "  One.   Two. "))).
  { vm_compute. right. left. reflexivity. }
  split; [exact Hin|].
  exact (proj1 (proj2 (@tokenizeSentences_tidy (js "  One.   Two. ") (js "Two.") Hin))).
Defined.

(** X23: every sentence but the last ends with [.], [!] or [?]. *)
Theorem tokenizeSentences_ends_sentences : forall (t s : jsstring) (i : nat),
  nth_error (tokenizeSentences t) i = Some s ->
  i + 1 < List.length (tokenizeSentences t) ->
  endsSentence s.
Proof.
  intros t s i Hs Hi.
  destruct (tokenizeSentences_cut_well t)
    as [[_ Hnone] | (_ & _ & firsts & final & Heq & Hfirsts)].
  - rewrite Hnone in Hs. destruct i; discriminate.
  - rewrite Heq in Hs, Hi. rewrite length_app in Hi. cbn [List.length] in Hi.
    rewrite nth_error_app1 in Hs by lia.
    rewrite Forall_forall in Hfirsts. apply Hfirsts. eapply nth_error_In; eassumption.
Qed.

Lemma tokenizeSentences_ends_sentences_witness :
  nth_error (tokenizeSentences (js "Hi there! Bye")) 0 = Some (js "Hi there!") /\
  0 + 1 < List.length (tokenizeSentences (js "Hi there! Bye")) /\
  endsSentence (js "Hi there!").
Proof.
  assert (Hs : nth_error (tokenizeSentences (js "Hi there! Bye")) 0 = Some (js "Hi there!"))
    by reflexivity.
  assert (Hi : 0 + 1 < List.length (tokenizeSentences (js "Hi there! Bye")))
    by (vm_compute; lia).
  exact (conj Hs (conj Hi
    (@tokenizeSentences_ends_sentences (js "Hi there! Bye") (js "Hi there!") 0 Hs Hi))).
Defined.

End SplitProofs.

Module AlignmentProofs.

Import AudioProcessor AudioProcessorProofs Alignment TokenizerProofs SplitProofs.
Open Scope nat_scope.

(** ** Blank text *)

Lemma trimStart_empty : forall s : jsstring,
  trimStart s = [] -> forallb is_space s = true.
Proof.
  induction s as [|c s IH]; intros H; [reflexivity|]. cbn in *.
  destruct (is_space c); [apply IH, H | discriminate].
Qed.

Lemma trimStart_blank : forall s : jsstring,
  forallb is_space (trimStart s) = true -> forallb is_space s = true.
Proof.
  induction s as [|c s IH]; intros H; [reflexivity|]. cbn in *.
  destruct (is_space c) eqn:Hc; [apply IH, H|].
  cbn in H. rewrite Hc in H. discriminate.
Qed.

Lemma forallb_rev : forall (f : N -> bool) (s : jsstring),
  forallb f (rev s) = forallb f s.
Proof.
  induction s as [|c s IH]; [reflexivity|]. cbn [rev forallb].
  rewrite forallb_app, IH. cbn. rewrite andb_true_r. apply andb_comm.
Qed.

Lemma trim_empty : forall s : jsstring,
  trim s = [] <-> forallb is_space s = true.
Proof.
  intros s. unfold trim. split.
  - intros H. apply (f_equal (@rev N)) in H. rewrite rev_involutive in H. cbn in H.
    apply trimStart_empty in H. rewrite forallb_rev in H. apply trimStart_blank, H.
  - intros H.
    assert (Hstart : trimStart s = []).
    { induction s as [|c s IH]; [reflexivity|]. cbn in *.
      apply andb_true_iff in H. destruct H as [Hc Hs]. rewrite Hc. apply IH, Hs. }
    rewrite Hstart. reflexivity.
Qed.

Lemma collapseSpaces_blank : forall (t : jsstring) (b : bool),
  forallb is_space (collapseSpaces b t) = forallb is_space t.
Proof.
  induction t as [|c t IH]; intros b; [reflexivity|]. cbn [collapseSpaces forallb].
  destruct (is_space c) eqn:Hc.
  - destruct b; cbn [forallb andb]; [apply IH|].
    change (is_space 32) with true. cbn [andb]. apply IH.
  - cbn [forallb]. rewrite Hc. reflexivity.
Qed.

(** X24: the tokenizer returns no sentence exactly when the text is empty or
    all white space. *)
Theorem tokenizeSentences_of_blank_text : forall t : jsstring,
  tokenizeSentences t = [] <-> forallb is_space t = true.
Proof.
  intros t. rewrite <- (collapseSpaces_blank t false), <- trim_empty.
  destruct (tokenizeSentences_cut_well t)
    as [[Hempty Hnone] | (_ & _ & firsts & final & Heq & _)].
  - split; auto.
  - destruct (cleanText_cases t) as [Hempty | Htidy].
    + split; [auto|]. intros _. unfold tokenizeSentences. rewrite Hempty. reflexivity.
    + split.
      * intros H. rewrite H in Heq. destruct firsts; discriminate.
      * intros H. rewrite H in Htidy. discriminate.
Qed.

(** ** The character-to-word table *)

Lemma wholeText_cons : forall (w : WordTimestamp) (ws : list WordTimestamp),
  wholeText (w :: ws) = word w ++ wholeText ws.
Proof. reflexivity. Qed.

Lemma charToWordFrom_length : forall (ws : list WordTimestamp) (n : nat),
  List.length (charToWordFrom n ws) = List.length (wholeText ws).
Proof.
  induction ws as [|w ws IH]; intros n; [reflexivity|].
  cbn [charToWordFrom]. rewrite wholeText_cons, !length_app, repeat_length, IH.
  reflexivity.
Qed.

Lemma charToWordFrom_span : forall (ws : list WordTimestamp) (n o k : nat),
  nth_error (charToWordFrom n ws) o = Some k ->
  n <= k /\
  exists w : WordTimestamp,
    nth_error ws (k - n) = Some w /\
    spanStart ws (k - n) <= o < spanStart ws (k - n) + List.length (word w).
Proof.
  induction ws as [|w ws IH]; intros n o k H; cbn [charToWordFrom] in H.
  - destruct o; discriminate.
  - destruct (Nat.lt_ge_cases o (List.length (word w))) as [Hlt | Hge].
    + rewrite nth_error_app1 in H by (rewrite repeat_length; assumption).
      apply nth_error_In, repeat_spec in H. subst k.
      split; [lia|]. exists w. rewrite Nat.sub_diag. split; [reflexivity|].
      unfold spanStart. cbn. lia.
    + rewrite nth_error_app2 in H by (rewrite repeat_length; assumption).
      rewrite repeat_length in H.
      destruct (IH _ _ _ H) as (Hk & w' & Hw' & Hspan).
      split; [lia|]. exists w'.
      replace (k - n) with (S (k - S n)) by lia.
      split; [exact Hw'|].
      unfold spanStart in *. cbn [firstn]. rewrite wholeText_cons, length_app. lia.
Qed.

Lemma charToWord_span : forall (ws : list WordTimestamp) (o k : nat),
  nth_error (buildCharToWordMapping ws) o = Some k ->
  exists w : WordTimestamp,
    nth_error ws k = Some w /\
    spanStart ws k <= o < spanStart ws k + List.length (word w).
Proof.
  intros ws o k H. unfold buildCharToWordMapping in H.
  destruct (charToWordFrom_span _ _ _ H) as (_ & w & Hw & Hspan).
  rewrite Nat.sub_0_r in *. exists w. split; assumption.
Qed.

(** X25: [buildCharToWordMapping] has one entry per code unit of the
    concatenated words, and the entry at an offset is the index of the word
    whose span contains that offset. *)
Theorem charToWord_gives_the_word_of_each_offset :
  forall (ws : list WordTimestamp),
    List.length (buildCharToWordMapping ws) = List.length (wholeText ws) /\
    forall (o k : nat),
      nth_error (buildCharToWordMapping ws) o = Some k ->
      exists w : WordTimestamp,
        nth_error ws k = Some w /\
        spanStart ws k <= o < spanStart ws k + List.length (word w).
Proof.
  intros ws. split; [apply charToWordFrom_length|].
  intros o k H. exact (@charToWord_span ws o k H).
Qed.

Lemma charToWord_gives_the_word_of_each_offset_witness :
  nth_error (buildCharToWordMapping spoken) 11 = Some 3 /\
  exists w : WordTimestamp,
    nth_error spoken 3 = Some w /\
    spanStart spoken 3 <= 11 < spanStart spoken 3 + List.length (word w).
Proof.
  assert (H : nth_error (buildCharToWordMapping spoken) 11 = Some 3) by reflexivity.
  exact (conj H (proj2 (charToWord_gives_the_word_of_each_offset spoken) 11 3 H)).
Defined.

End AlignmentProofs.

Module LoopProofs.

Import AudioProcessor AudioProcessorProofs Alignment TokenizerProofs SplitProofs
  AlignmentProofs.
Open Scope nat_scope.

(** ** [indexOf] finds an occurrence *)

Lemma startsWith_firstn : forall (pat s : jsstring),
  startsWith s pat = true -> firstn (List.length pat) s = pat.
Proof.
  induction pat as [|p pat IH]; intros s H; [reflexivity|].
  destruct s as [|c s]; [discriminate|]. cbn in H.
  apply andb_true_iff in H. destruct H as [Hpc H].
  apply N.eqb_eq in Hpc. subst c. cbn. rewrite (IH s H). reflexivity.
Qed.

Lemma indexFrom_occurrence : forall (s pat : jsstring) (k r : nat),
  indexFrom s pat k = Some r ->
  k <= r /\ firstn (List.length pat) (skipn (r - k) s) = pat.
Proof.
  induction s as [|c s IH]; intros pat k r H; cbn [indexFrom] in H.
  - destruct (startsWith [] pat) eqn:E; [|discriminate].
    injection H as <-. rewrite Nat.sub_diag. split; [lia|].
    apply startsWith_firstn. exact E.
  - destruct (startsWith (c :: s) pat) eqn:E.
    + injection H as <-. rewrite Nat.sub_diag. split; [lia|].
      apply startsWith_firstn. exact E.
    + destruct (IH _ _ _ H) as [Hk Hocc]. split; [lia|].
      replace (r - k) with (S (r - S k)) by lia. exact Hocc.
Qed.

Lemma indexOf_occurrence : forall (s pat : jsstring) (position r : nat),
  position <= List.length s ->
  indexOf s pat position = Some r ->
  substring s r (List.length pat) = pat.
Proof.
  intros s pat position r Hpos H. unfold indexOf in H.
  rewrite Nat.min_l in H by assumption.
  destruct (indexFrom_occurrence _ _ _ H) as [Hr Hocc].
  unfold substring. rewrite skipn_skipn in Hocc.
  replace (r - position + position) with r in Hocc by lia. exact Hocc.
Qed.

(** ** The finds of a run *)

Section Trace.

Variable ws : list WordTimestamp.
Variable fullText : jsstring.
Variable charToWord : list nat.

Lemma increasing_from_earlier : forall (numbers : list nat) (lo lo' : nat),
  lo' <= lo -> increasing lo numbers -> increasing lo' numbers.
Proof.
  intros [|i rest] lo lo' Hlo H; [exact I|]. cbn in *. destruct H as [H1 H2].
  split; [lia | exact H2].
Qed.

Lemma iteration_cases : forall (st : LoopState) (i : nat) (s : jsstring),
  iteration ws fullText charToWord st (i, s) = st \/
  exists start_ : nat,
    is_empty (trim s) = false /\
    indexOf fullText (trim s) (prevEnd st) = Some start_ /\
    start_ + List.length (trim s) - 1 < List.length charToWord /\
    iteration ws fullText charToWord st (i, s) =
      {| audioSegments :=
           audioSegments st ++ [segmentFor ws charToWord i (trim s) start_];
         prevEnd := start_ + List.length (trim s) |}.
Proof.
  intros st i s. unfold iteration.
  destruct (is_empty (trim s)) eqn:Hempty; [left; reflexivity|].
  destruct (indexOf fullText (trim s) (prevEnd st)) as [start_|] eqn:Hfound;
    [|left; reflexivity].
  destruct ((List.length charToWord <=? start_)
            || (List.length charToWord <=? start_ + List.length (trim s) - 1))
    eqn:Hbounds; [left; reflexivity|].
  apply orb_false_iff in Hbounds. destruct Hbounds as [_ Hb2].
  apply Nat.leb_gt in Hb2.
  right. exists start_. repeat split; try assumption.
Qed.

Lemma runLoop_trace :
  forall (l : list jsstring) (a : nat) (st : LoopState),
    prevEnd st <= List.length fullText ->
    exists fs : list Found,
      audioSegments
        (runLoop ws fullText charToWord st (combine (seq a (List.length l)) l)) =
        audioSegments st ++ map (foundSegment ws charToWord) fs /\
      increasing a (map number fs) /\
      Forall (fun f => a <= number f /\ nth_error l (number f - a) = Some (sentence f)) fs /\
      chained fullText (List.length charToWord) (prevEnd st) fs.
Proof.
  induction l as [|x l IH]; intros a st Hprev.
  - exists []. cbn. rewrite app_nil_r. repeat split; constructor.
  - cbn [List.length seq combine runLoop fold_left].
    assert (Hshift : forall fs : list Found,
      Forall (fun f => S a <= number f /\
                       nth_error l (number f - S a) = Some (sentence f)) fs ->
      Forall (fun f => a <= number f /\
                       nth_error (x :: l) (number f - a) = Some (sentence f)) fs).
    { intros fs H. rewrite Forall_forall in *. intros f Hf.
      destruct (H f Hf) as [H1 H2]. split; [lia|].
      replace (number f - a) with (S (number f - S a)) by lia. exact H2. }
    destruct (iteration_cases st a x)
      as [-> | (start_ & Hempty & Hfound & Hmapped & ->)].
    + destruct (IH (S a) st Hprev) as (fs & H1 & H2 & H3 & H4).
      exists fs. split; [exact H1|]. split; [|split; [apply Hshift, H3 | exact H4]].
      apply increasing_from_earlier with (lo := S a); [lia | exact H2].
    + destruct (indexOf_bounds _ _ Hprev Hfound) as [Hge Hend].
      assert (Hlen : 1 <= List.length (trim x)).
      { destruct (trim x); [discriminate | cbn; lia]. }
      match goal with
      | |- context [fold_left _ _ ?st'] =>
          destruct (IH (S a) st') as (fs & H1 & H2 & H3 & H4);
            [cbn [prevEnd]; exact Hend|]
      end.
      exists ({| number := a; sentence := x; offset := start_ |} :: fs).
      unfold runLoop in H1. rewrite H1. cbn [audioSegments prevEnd] in *.
      split; [rewrite <- app_assoc; reflexivity|].
      split; [cbn; split; [lia | exact H2]|].
      split.
      * constructor; [|apply Hshift, H3]. cbn [number sentence].
        rewrite Nat.sub_diag. split; [lia | reflexivity].
      * cbn [chained number sentence offset].
        split; [exact Hlen|]. split; [exact Hge|].
        split; [exact (@indexOf_occurrence fullText (trim x) (prevEnd st) start_
                         Hprev Hfound)|].
        split; [exact Hend|]. split; [lia | exact H4].
Qed.

End Trace.

(** The finds behind the result of the aligner. *)
Lemma segments_trace : forall (result : TranscriptionResult),
  let ws := gatherWords result in
  let fullText := buildFullText ws in
  let charToWord := buildCharToWordMapping ws in
  let sentences := tokenizeSentences fullText in
  exists fs : list Found,
    processTranscriptionIntoSegments result = map (foundSegment ws charToWord) fs /\
    increasing 0 (map number fs) /\
    Forall (fun f => nth_error sentences (number f) = Some (sentence f)) fs /\
    chained fullText (List.length charToWord) 0 fs.
Proof.
  intros result ws fullText charToWord sentences.
  unfold processTranscriptionIntoSegments. fold ws.
  destruct (List.length ws =? 0) eqn:Hlen.
  - exists []. cbn. repeat split; constructor.
  - destruct (@runLoop_trace ws fullText charToWord sentences 0 initialLoopState)
      as (fs & H1 & H2 & H3 & H4); [cbn; lia|].
    exists fs. fold fullText charToWord sentences. unfold entries. rewrite H1.
    split; [reflexivity|]. split; [exact H2|]. split; [|exact H4].
    rewrite Forall_forall in *. intros f Hf. destruct (H3 f Hf) as [_ H].
    rewrite Nat.sub_0_r in H. exact H.
Qed.

End LoopProofs.

Module SegmentProofs.

Import AudioProcessor AudioProcessorProofs Alignment TokenizerProofs SplitProofs
  AlignmentProofs LoopProofs.
Open Scope nat_scope.

Lemma text_found : forall (ws : list WordTimestamp) (ctw : list nat) (f : Found),
  text (foundSegment ws ctw f) = trim (sentence f).
Proof. reflexivity. Qed.

(** ** Numbers and texts of the segments *)

Lemma increasing_count : forall (numbers : list nat) (lo n : nat),
  increasing lo numbers -> Forall (fun i => i < n) numbers ->
  lo + List.length numbers <= Nat.max lo n.
Proof.
  induction numbers as [|i rest IH]; intros lo n Hinc Hall; [cbn; lia|].
  destruct Hinc as [Hlo Hrest]. inversion Hall as [|? ? Hi Hall']; subst.
  specialize (IH (S i) n Hrest Hall'). cbn [List.length]. lia.
Qed.

(** X26: the segments are the texts of distinct sentences in order of their
    numbers, the segment of sentence [i] (from 0) has id [segment_(i+1)],
    so skipped sentences leave gaps in the ids; there are never more
    segments than sentences. *)
Theorem segments_are_numbered_sentences :
  forall (result : TranscriptionResult),
    let sentences := tokenizeSentences (buildFullText (gatherWords result)) in
    List.length (processTranscriptionIntoSegments result) <= List.length sentences /\
    exists picks : list nat,
      increasing 0 picks /\
      Forall2
        (fun seg i =>
           id seg = js "segment_" ++ decimal (i + 1) /\
           nth_error sentences i = Some (text seg))
        (processTranscriptionIntoSegments result) picks.
Proof.
  intros result sentences.
  destruct (segments_trace result) as (fs & Hsegs & Hinc & Hsent & _).
  fold sentences in Hsent. rewrite Hsegs.
  assert (Htext : Forall (fun f => trim (sentence f) = sentence f) fs).
  { rewrite Forall_forall in *. intros f Hf.
    apply tidy_trim.
    apply (@tokenizeSentences_pieces (buildFullText (gatherWords result))).
    eapply nth_error_In. apply (Hsent f Hf). }
  split.
  - rewrite length_map.
    assert (Hlt : Forall (fun i => i < List.length sentences) (map number fs)).
    { rewrite Forall_forall in *. intros i Hi. apply in_map_iff in Hi.
      destruct Hi as (f & <- & Hf). apply nth_error_Some. rewrite (Hsent f Hf).
      discriminate. }
    pose proof (increasing_count _ Hinc Hlt) as Hcount.
    rewrite length_map in Hcount. lia.
  - exists (map number fs). split; [exact Hinc|].
    clear Hsegs Hinc. induction fs as [|f fs IH]; [constructor|].
    inversion Hsent as [|? ? Hf Hrest]; subst.
    inversion Htext as [|? ? Ht Htrest]; subst.
    cbn [map]. constructor; [|apply IH; assumption].
    unfold foundSegment, segmentFor. cbn [id text]. rewrite Ht. split; [reflexivity | exact Hf].
Qed.

(** ** Where the segments lie in the full text *)

(** X27: every segment text is non-empty and occurs in the full text, and the
    occurrences used do not overlap and follow each other in the order of
    the segments. *)
Theorem segments_occur_one_after_the_other :
  forall (result : TranscriptionResult),
    let fullText := buildFullText (gatherWords result) in
    let segs := processTranscriptionIntoSegments result in
    exists offsets : list nat,
      Forall2
        (fun seg o =>
           text seg <> [] /\
           substring fullText o (List.length (text seg)) = text seg)
        segs offsets /\
      laid_out 0 (combine offsets (map (fun seg => List.length (text seg)) segs)).
Proof.
  intros result fullText segs. subst segs.
  destruct (segments_trace result) as (fs & Hsegs & _ & _ & Hchain).
  fold fullText in Hchain. rewrite Hsegs. clear Hsegs.
  exists (map offset fs).
  revert Hchain. generalize 0 as cursor.
  induction fs as [|f fs IH]; intros cursor Hchain; [split; constructor|].
  cbn [chained] in Hchain. destruct Hchain as (Hlen & Hcur & Hocc & _ & _ & Hrest).
  destruct (IH _ Hrest) as [Hall Hlaid].
  cbn [map combine laid_out]. rewrite text_found.
  split; [constructor; [|exact Hall] | split; [exact Hcur | exact Hlaid]].
  rewrite text_found. split; [|exact Hocc].
  intros E. rewrite E in Hlen. cbn in Hlen. lia.
Qed.

(** ** The times of the segments *)

Lemma found_times :
  forall (ws : list WordTimestamp) (f : Found),
    1 <= List.length (trim (sentence f)) ->
    offset f + List.length (trim (sentence f))
      <= List.length (buildCharToWordMapping ws) ->
    exists (k1 k2 : nat) (w1 w2 : WordTimestamp),
      nth_error (buildCharToWordMapping ws) (offset f) = Some k1 /\
      nth_error (buildCharToWordMapping ws)
        (offset f + List.length (trim (sentence f)) - 1) = Some k2 /\
      k1 <= k2 /\
      nth_error ws k1 = Some w1 /\ nth_error ws k2 = Some w2 /\
      (startTime (foundSegment ws (buildCharToWordMapping ws) f) == start w1)%Q /\
      (endTime (foundSegment ws (buildCharToWordMapping ws) f) == end_ w2)%Q.
Proof.
  intros ws f Hlen Hmapped.
  set (ctw := buildCharToWordMapping ws) in *.
  set (o := offset f) in *. set (n := List.length (trim (sentence f))) in *.
  destruct (nth_error ctw o) as [k1|] eqn:Hk1;
    [|apply nth_error_None in Hk1; lia].
  destruct (nth_error ctw (o + n - 1)) as [k2|] eqn:Hk2;
    [|apply nth_error_None in Hk2; lia].
  pose proof (charToWordFrom_lookup _ _ _ Hk1) as Hr1.
  pose proof (charToWordFrom_lookup _ _ _ Hk2) as Hr2.
  destruct (nth_error ws k1) as [w1|] eqn:Hw1; [|apply nth_error_None in Hw1; lia].
  destruct (nth_error ws k2) as [w2|] eqn:Hw2; [|apply nth_error_None in Hw2; lia].
  exists k1, k2, w1, w2.
  split; [reflexivity|]. split; [reflexivity|].
  split; [apply (@charToWordFrom_monotone ws 0 o (o + n - 1)); [lia | assumption..]|].
  split; [assumption|]. split; [assumption|].
  unfold foundSegment, segmentFor. cbn [startTime endTime].
  fold ctw o n. rewrite Hk1, Hk2. cbn [wordField]. rewrite Hw1, Hw2. cbn [option_map].
  split; apply orZero_some.
Qed.

Lemma chained_In : forall (fullText : jsstring) (bound : nat) (fs : list Found)
    (cursor : nat) (f : Found),
  chained fullText bound cursor fs -> In f fs ->
  1 <= List.length (trim (sentence f)) /\
  substring fullText (offset f) (List.length (trim (sentence f))) = trim (sentence f) /\
  offset f + List.length (trim (sentence f)) <= List.length fullText /\
  offset f + List.length (trim (sentence f)) <= bound.
Proof.
  induction fs as [|g fs IH]; intros cursor f Hchain Hin; [contradiction|].
  cbn [chained] in Hchain. destruct Hchain as (H1 & _ & H3 & H4 & H5 & Hrest).
  destruct Hin as [<- | Hin]; [auto|]. eapply IH; eassumption.
Qed.

(** X28: the start time of a segment is the start of some word and its end time
    the end of the same or a later word of the transcript. *)
Theorem segment_times_are_word_times :
  forall (result : TranscriptionResult) (seg : AudioSegment),
    In seg (processTranscriptionIntoSegments result) ->
    exists (k1 k2 : nat) (w1 w2 : WordTimestamp),
      k1 <= k2 /\
      nth_error (gatherWords result) k1 = Some w1 /\
      nth_error (gatherWords result) k2 = Some w2 /\
      (startTime seg == start w1)%Q /\
      (endTime seg == end_ w2)%Q.
Proof.
  intros result seg Hin.
  destruct (segments_trace result) as (fs & Hsegs & _ & _ & Hchain).
  rewrite Hsegs in Hin. apply in_map_iff in Hin. destruct Hin as (f & <- & Hf).
  destruct (chained_In _ _ _ _ _ Hchain Hf) as (Hlen & _ & _ & Hmapped).
  destruct (found_times (gatherWords result) f Hlen Hmapped)
    as (k1 & k2 & w1 & w2 & _ & _ & Hk & Hw1 & Hw2 & Hs & He).
  exists k1, k2, w1, w2. repeat split; assumption.
Qed.

Lemma segment_times_are_word_times_witness :
  In {| id := js "segment_3"; text := js "Two."; startTime := 3; endTime := 4 |} (processTranscriptionIntoSegments Example.two_spaces) /\
  exists (k1 k2 : nat) (w1 w2 : WordTimestamp),
    k1 <= k2 /\
    nth_error (gatherWords Example.two_spaces) k1 = Some w1 /\
    nth_error (gatherWords Example.two_spaces) k2 = Some w2 /\
    (3 == start w1)%Q /\
    (4 == end_ w2)%Q.
Proof.
  assert (Hin : In {| id := js "segment_3"; text := js "Two."; startTime := 3; endTime := 4 |}
                  (processTranscriptionIntoSegments Example.two_spaces)).
  { vm_compute. right. left. reflexivity. }
  exact (conj Hin (@segment_times_are_word_times Example.two_spaces _ Hin)).
Defined.

(** ** Alignment of text and time *)

Lemma trimStart_suffix : forall s : jsstring, exists l, s = l ++ trimStart s.
Proof.
  induction s as [|c s [l IH]]; [exists []; reflexivity|]. cbn [trimStart].
  destruct (is_space c); [|exists []; reflexivity].
  exists (c :: l). cbn. rewrite <- IH. reflexivity.
Qed.

Lemma trim_prefix : forall s : jsstring,
  trimStart s = s -> exists r, s = trim s ++ r.
Proof.
  intros s H. unfold trim. rewrite H.
  destruct (trimStart_suffix (rev s)) as [l Hl].
  exists (rev l). rewrite <- rev_app_distr, <- Hl, rev_involutive. reflexivity.
Qed.

Lemma substring_of_prefix : forall (s r : jsstring) (o n : nat),
  o + n <= List.length s -> substring (s ++ r) o n = substring s o n.
Proof.
  intros s r o n H. unfold substring. rewrite skipn_app, firstn_app, length_skipn.
  replace (n - (List.length s - o)) with 0 by lia. cbn [firstn]. apply app_nil_r.
Qed.

(** X29: when the concatenated words hold no newline and no leading white
    space, each segment text occurs in them at an offset such that the
    start time is the start of the word holding its first code unit and the
    end time the end of the word holding its last code unit. *)
Theorem segments_align_text_and_time :
  forall (result : TranscriptionResult) (seg : AudioSegment),
    let ws := gatherWords result in
    removeNewlines (wholeText ws) = wholeText ws ->
    trimStart (wholeText ws) = wholeText ws ->
    In seg (processTranscriptionIntoSegments result) ->
    exists (o k1 k2 : nat) (w1 w2 : WordTimestamp),
      let n := List.length (text seg) in
      1 <= n /\
      substring (wholeText ws) o n = text seg /\
      nth_error ws k1 = Some w1 /\
      spanStart ws k1 <= o < spanStart ws k1 + List.length (word w1) /\
      nth_error ws k2 = Some w2 /\
      spanStart ws k2 <= o + n - 1 < spanStart ws k2 + List.length (word w2) /\
      (startTime seg == start w1)%Q /\
      (endTime seg == end_ w2)%Q.
Proof.
  intros result seg ws Hnl Hstart Hin.
  destruct (segments_trace result) as (fs & Hsegs & _ & _ & Hchain).
  fold ws in Hsegs, Hchain.
  rewrite Hsegs in Hin. apply in_map_iff in Hin. destruct Hin as (f & <- & Hf).
  destruct (chained_In _ _ _ _ _ Hchain Hf) as (Hlen & Hocc & Hend & Hmapped).
  destruct (found_times ws f Hlen Hmapped)
    as (k1 & k2 & w1 & w2 & Hk1 & Hk2 & _ & _ & _ & Hs & He).
  destruct (@charToWord_span ws _ _ Hk1) as (w1' & Hw1 & Hspan1).
  destruct (@charToWord_span ws _ _ Hk2) as (w2' & Hw2 & Hspan2).
  assert (Hfull : buildFullText ws = trim (wholeText ws)).
  { unfold buildFullText. fold (wholeText ws). rewrite Hnl. reflexivity. }
  destruct (trim_prefix Hstart) as [r Hr].
  exists (offset f), k1, k2, w1', w2'.
  assert (Htext : text (foundSegment ws (buildCharToWordMapping ws) f)
                  = trim (sentence f)) by reflexivity.
  cbv zeta. rewrite Htext.
  split; [exact Hlen|]. split.
  { rewrite Hr, substring_of_prefix; rewrite <- Hfull; assumption. }
  split; [exact Hw1|]. split; [exact Hspan1|].
  split; [exact Hw2|]. split; [exact Hspan2|].
  assert (E1 : nth_error ws k1 = Some w1') by exact Hw1.
  assert (E2 : nth_error ws k2 = Some w2') by exact Hw2.
  destruct (found_times ws f Hlen Hmapped)
    as (j1 & j2 & v1 & v2 & Hj1 & Hj2 & _ & Hv1 & Hv2 & Hs' & He').
  assert (j1 = k1) by congruence. assert (j2 = k2) by congruence. subst j1 j2.
  assert (v1 = w1') by congruence. assert (v2 = w2') by congruence. subst v1 v2.
  split; assumption.
Qed.

Lemma segments_align_text_and_time_witness :
  removeNewlines (wholeText spoken) = wholeText spoken /\
  trimStart (wholeText spoken) = wholeText spoken /\
  In {| id := js "segment_3"; text := js "Two."; startTime := 3; endTime := 4 |} (processTranscriptionIntoSegments Example.two_spaces) /\
  exists (o k1 k2 : nat) (w1 w2 : WordTimestamp),
    1 <= 4 /\
    substring (wholeText spoken) o 4 = js "Two." /\
    nth_error spoken k1 = Some w1 /\
    spanStart spoken k1 <= o < spanStart spoken k1 + List.length (word w1) /\
    nth_error spoken k2 = Some w2 /\
    spanStart spoken k2 <= o + 4 - 1 < spanStart spoken k2 + List.length (word w2) /\
    (3 == start w1)%Q /\
    (4 == end_ w2)%Q.
Proof.
  assert (Hnl : removeNewlines (wholeText spoken) = wholeText spoken) by reflexivity.
  assert (Hstart : trimStart (wholeText spoken) = wholeText spoken) by reflexivity.
  assert (Hin : In {| id := js "segment_3"; text := js "Two."; startTime := 3; endTime := 4 |}
                  (processTranscriptionIntoSegments Example.two_spaces)).
  { vm_compute. right. left. reflexivity. }
  exact (conj Hnl (conj Hstart (conj Hin
    (@segments_align_text_and_time Example.two_spaces _ Hnl Hstart Hin)))).
Defined.

End SegmentProofs.
